(** * flame-chart-js: the basic render engine (BasicRenderEngine)

    A shallow embedding of the render queue, the drawing-state cache, the
    pattern registry, the text fitter and the viewport arithmetic of
    [BasicRenderEngine], followed by the properties of the engine's
    specification.

    Conventions of the embedding.
    - A JavaScript number is the rational ([Q]) that a finite double
      denotes.  The viewport, [addText], the text fitter and the anchoring
      of the tiles round the result of every sum, difference, product and
      quotient to the nearest double, ties to even ([round64], with the 53
      bits and the subnormals of IEEE 754 binary64); comparisons, [Math.floor]
      and [Math.ceil] are exact on doubles.  The clamping of [renderBlock]
      is written with the exact operations.  NaN and the infinities are
      outside the model, and with them the operations whose result leaves
      the range of the doubles; every statement that depends on a quotient
      carries the hypothesis that its divisor is not zero.
    - A label is a list of UTF-16 code units, because [String.prototype.slice]
      and [length] count code units; property names, colours and pattern
      names are Rocq strings.
    - An object used as a dictionary whose enumeration order is observable
      ([queue], [queue[p].rect] and its colour maps) is an association list
      in insertion order, enumerated by [ownEntries] in the order of
      [Object.keys]/[Object.entries]; the two caches and the pattern
      registry, which are only ever read by key, are finite maps.  These
      hold the own properties.  Where the source reads a dictionary by a
      name that can be any string ([queue.rect[pattern]], its colour maps,
      [this.patterns[name]]), the read follows the prototype chain: a name
      of [Object.prototype] ([isPrototypeName], the standard members) that
      is not an own key answers with the inherited member, which is truthy
      and is no array.
    - Rect objects live in a store ([Heap]); the queue holds references to
      them, as the source pushes the caller's object itself.
    - The canvas context is the list of the operations it received, oldest
      first, together with its [measureText]. *)

From Stdlib Require Import QArith Qround Qminmax Qabs Qpower Qreduction ZArith.
From Stdlib Require Import List String Ascii Lia Lqa DecimalString Sorted.
From stdpp Require Import gmap strings list.

Local Open Scope Q_scope.

(** ** Numbers *)

(** [a < b] on numbers, as a boolean. *)
Definition Qlt_bool (a b : Q) : bool := negb (Qle_bool b a).

(** [Math.floor] and [Math.ceil] are [Qfloor] and [Qceiling]. *)

(** The integer nearest to [x], the even one of the two when [x] lies half
    way between them. *)
Definition rne (x : Q) : Z :=
  let f := Qfloor x in
  match Qcompare (x - inject_Z f) (1 # 2) with
  | Lt => f
  | Gt => (f + 1)%Z
  | Eq => if Z.even f then f else (f + 1)%Z
  end.

(** 2 to the power [e]. *)
Definition pow2 (e : Z) : Q := Qpower 2 e.

(** The exponent of the power of 2 at or below a positive number. *)
Definition ilog2 (q : Q) : Z :=
  let k := (Z.log2 (Qnum q) - Z.log2 (Z.pos (Qden q)))%Z in
  if Qle_bool (pow2 k) q then k else (k - 1)%Z.

(** The exponent of the last bit of the doubles around [q]: a double has
    53 bits, and no bit below 2^-1074. *)
Definition ulpExp (q : Q) : Z := Z.max (-1074) (ilog2 (Qabs q) - 52).

(** The double nearest to [q], the one with the even last bit when [q] lies
    half way between two: the result of an arithmetic operation whose exact
    value is [q]. *)
Definition round64 (q : Q) : Q :=
  let e := ulpExp q in Qred (inject_Z (rne (q / pow2 e)) * pow2 e).

(** ** Strings and values *)

(** A UTF-16 code unit. *)
Definition char16 : Type := N.

(** A JavaScript string as the sequence of its code units. *)
Definition jsstring : Type := list char16.

(** The code unit of the character U+2026 (horizontal ellipsis). *)
Definition ellipsis : char16 := 8230%N.

(** A reference to a tileable fill resource ([CanvasPattern]). *)
Definition handle : Type := nat.

(** The values that are written to the context or passed to its stateful
    calls: numbers, strings and fill resources. *)
Inductive value : Type :=
| VNum (q : Q)
| VStr (s : string)
| VPattern (p : handle).

(** [a === b]. *)
Definition strict_eq (a b : value) : bool :=
  match a, b with
  | VNum p, VNum q => Qeq_bool p q
  | VStr s, VStr t => String.eqb s t
  | VPattern p, VPattern q => Nat.eqb p q
  | _, _ => false
  end.

(** [cached !== v], where a missing property reads as [undefined]. *)
Definition differs (cached : option value) (v : value) : bool :=
  match cached with
  | None => true
  | Some c => negb (strict_eq c v)
  end.

(** [!cached]: a missing property, the number 0 and the empty string are
    falsy. *)
Definition falsy (cached : option value) : bool :=
  match cached with
  | None => true
  | Some (VNum q) => Qeq_bool q 0
  | Some (VStr s) => String.eqb s EmptyString
  | Some (VPattern _) => false
  end.

(** ** [String.prototype.slice] *)

(** The index a relative argument of [slice] denotes in a string of length
    [len]: negative arguments count from the end. *)
Definition relativeIndex (len i : Z) : Z :=
  if (i <? 0)%Z then Z.max (len + i) 0 else Z.min i len.

(** [s.slice(from, to)]. *)
Definition slice (s : jsstring) (from to : Z) : jsstring :=
  let len := Z.of_nat (length s) in
  let k := relativeIndex len from in
  let final := relativeIndex len to in
  take (Z.to_nat (final - k)) (drop (Z.to_nat k) s).

(** ** Objects used as dictionaries *)

Section Dictionary.
Context {K V : Type} `{EqDecision K}.

(** [o[k]]. *)
Fixpoint getProp (o : list (K * V)) (k : K) : option V :=
  match o with
  | [] => None
  | (k', v) :: o' => if decide (k' = k) then Some v else getProp o' k
  end.

(** [o[k] = v]: an existing property keeps its place, a new one is
    created last. *)
Fixpoint setProp (o : list (K * V)) (k : K) (v : V) : list (K * V) :=
  match o with
  | [] => [(k, v)]
  | (k', v') :: o' =>
      if decide (k' = k) then (k, v) :: o' else (k', v') :: setProp o' k v
  end.

(** Insertion of an entry into a list of entries that is ascending in the
    array index [idx]. *)
Fixpoint insertByIndex (idx : K -> Z) (e : K * V) (l : list (K * V)) : list (K * V) :=
  match l with
  | [] => [e]
  | e' :: l' =>
      if (idx (fst e) <=? idx (fst e'))%Z then e :: l
      else e' :: insertByIndex idx e l'
  end.

(** The order in which [Object.keys] and [Object.entries] enumerate the own
    properties: the array indices in ascending order, then the other keys
    in the order of their creation.  [arrayIndex k] is the index a key
    denotes, if it is one. *)
Definition ownEntries (arrayIndex : K -> option Z) (o : list (K * V)) : list (K * V) :=
  let isIndex (e : K * V) := bool_decide (is_Some (arrayIndex (fst e))) in
  foldr (insertByIndex (fun k => default 0%Z (arrayIndex k))) []
        (filter (fun e => isIndex e = true) o)
  ++ filter (fun e => isIndex e = false) o.
End Dictionary.

(** The names every object inherits from [Object.prototype]: a dictionary
    answers for them even when it has no such key of its own. *)
Definition prototypeNames : list string :=
  ["constructor"; "hasOwnProperty"; "isPrototypeOf"; "propertyIsEnumerable";
   "toLocaleString"; "toString"; "valueOf"; "__proto__"; "__defineGetter__";
   "__defineSetter__"; "__lookupGetter__"; "__lookupSetter__"]%string.

Definition isPrototypeName (k : string) : bool := bool_decide (k ∈ prototypeNames).

(** The value of a decimal digit. *)
Definition digitValue (c : ascii) : option Z :=
  let n := Z.of_nat (nat_of_ascii c) in
  if ((48 <=? n) && (n <=? 57))%Z then Some (n - 48)%Z else None.

(** The number a string of decimal digits denotes, after the digits [acc]. *)
Fixpoint digitsValue (acc : Z) (s : string) : option Z :=
  match s with
  | EmptyString => Some acc
  | String c s' =>
      match digitValue c with
      | Some d => digitsValue (10 * acc + d) s'
      | None => None
      end
  end.

(** A string key is an array index when it is the canonical decimal form of
    an integer from 0 to 2^32 - 2. *)
Definition stringIndex (s : string) : option Z :=
  match s with
  | EmptyString => None
  | String c s' =>
      if (Ascii.eqb c "0" && negb (String.eqb s' EmptyString))%bool then None
      else match digitsValue 0 s with
           | Some n => if (n <? 2 ^ 32 - 1)%Z then Some n else None
           | None => None
           end
  end.

(** The key of an integer priority is its decimal form, which is an array
    index for the integers from 0 to 2^32 - 2. *)
Definition priorityIndex (p : Z) : option Z :=
  if ((0 <=? p) && (p <? 2 ^ 32 - 1))%Z then Some p else None.

(** [String(p)] for an integer (below 10^21 in absolute value, where
    JavaScript still prints all the digits); [parseInt] reads it back. *)
Definition toString (p : Z) : string := NilZero.string_of_int (Z.to_int p).

(** ** [Array.prototype.sort] without a comparator *)

(** The default order of [sort]: the elements are compared as strings, code
    unit by code unit. *)
Definition defaultLe (a b : Z) : bool := String.leb (toString a) (toString b).

Fixpoint insertDefault (a : Z) (l : list Z) : list Z :=
  match l with
  | [] => [a]
  | b :: l' => if defaultLe a b then a :: l else b :: insertDefault a l'
  end.

(** [l.sort()]: the sort is stable, so its result is determined by the
    order alone; insertion from the right is one stable sort. *)
Definition sortDefault (l : list Z) : list Z := foldr insertDefault [] l.

(** ** Transformation matrices *)

(** A 2D [DOMMatrixReadOnly], as the calls that build it: the arithmetic
    of its entries is the browser's.  [identityMatrix] is
    [new DOMMatrixReadOnly()], [matrixScale m sx sy] is [m.scale(sx, sy)]
    and [matrixTranslate m tx ty] is [m.translate(tx, ty)]. *)
Inductive Matrix : Type :=
| identityMatrix
| matrixScale (m : Matrix) (sx sy : Q)
| matrixTranslate (m : Matrix) (tx ty : Q).

(** ** Data model *)

(** A registered pattern: [{ scale, width, pattern }]. *)
Record Pattern : Type := mkPattern {
  pat_scale : Q;
  pat_width : Q;
  pat_pattern : handle
}.

(** A rect object as the callers of [addRect] build it. *)
Record Rect : Type := mkRect {
  rect_color : string;
  rect_pattern : option string;
  rect_x : Q;
  rect_y : Q;
  rect_w : Q;
  rect_h : option Q
}.

(** A queued text. *)
Record Text : Type := mkText {
  text_text : jsstring;
  text_x : Q;
  text_y : Q;
  text_w : Q;
  text_textMaxWidth : Q
}.

(** A queued stroke. *)
Record Stroke : Type := mkStroke {
  stroke_color : string;
  stroke_x : Q;
  stroke_y : Q;
  stroke_w : Q;
  stroke_h : Q
}.

(** A reference to a rect object. *)
Definition loc : Type := nat.

(** The store of the rect objects. *)
Definition Heap : Type := gmap loc Rect.

(** [RectRenderQueue]: pattern name, then colour, then the rects in the
    order of their insertion. *)
Definition RectRenderQueue : Type := list (string * list (string * list loc)).

(** One priority of the queue. *)
Record Bucket : Type := mkBucket {
  b_text : list Text;
  b_stroke : list Stroke;
  b_rect : RectRenderQueue
}.

(** The operations the canvas context receives. *)
Inductive CtxOp : Type :=
| SetProp (field : string) (v : value)
| CallFn (fn : string) (v : value)
| FillRect (x y w h : Q)
| FillText (text : jsstring) (x y : Q)
| SetLineDash (segments : list Q)
| StrokeRect (x y w h : Q)
| PatternSetTransform (p : handle) (m : Matrix).

(** The fields of [BasicRenderEngine] that the queue, the caches, the
    registry and the viewport read and write. *)
Record Engine : Type := mkEngine {
  width : Q;
  blockHeight : Q;
  blockPaddingLeftRight : Q;
  blockPaddingTopBottom : Q;
  placeholderWidth : Q;
  fontColor : string;
  queue : list (Z * Bucket);
  zoom : Q;
  positionX : Q;
  min : Q;
  max : Q;
  patterns : gmap string Pattern;
  ctxCachedSettings : gmap string value;
  ctxCachedCalls : gmap string value;
  ctx : list CtxOp;
  measureText : jsstring -> Q
}.

Definition set_queue (q : list (Z * Bucket)) (e : Engine) : Engine :=
  mkEngine (width e) (blockHeight e) (blockPaddingLeftRight e) (blockPaddingTopBottom e)
           (placeholderWidth e) (fontColor e) q (zoom e) (positionX e) (min e) (max e)
           (patterns e) (ctxCachedSettings e) (ctxCachedCalls e) (ctx e) (measureText e).

Definition set_positionX (x : Q) (e : Engine) : Engine :=
  mkEngine (width e) (blockHeight e) (blockPaddingLeftRight e) (blockPaddingTopBottom e)
           (placeholderWidth e) (fontColor e) (queue e) (zoom e) x (min e) (max e)
           (patterns e) (ctxCachedSettings e) (ctxCachedCalls e) (ctx e) (measureText e).

Definition set_patterns (ps : gmap string Pattern) (e : Engine) : Engine :=
  mkEngine (width e) (blockHeight e) (blockPaddingLeftRight e) (blockPaddingTopBottom e)
           (placeholderWidth e) (fontColor e) (queue e) (zoom e) (positionX e) (min e) (max e)
           ps (ctxCachedSettings e) (ctxCachedCalls e) (ctx e) (measureText e).

Definition set_ctxCachedSettings (c : gmap string value) (e : Engine) : Engine :=
  mkEngine (width e) (blockHeight e) (blockPaddingLeftRight e) (blockPaddingTopBottom e)
           (placeholderWidth e) (fontColor e) (queue e) (zoom e) (positionX e) (min e) (max e)
           (patterns e) c (ctxCachedCalls e) (ctx e) (measureText e).

Definition set_ctxCachedCalls (c : gmap string value) (e : Engine) : Engine :=
  mkEngine (width e) (blockHeight e) (blockPaddingLeftRight e) (blockPaddingTopBottom e)
           (placeholderWidth e) (fontColor e) (queue e) (zoom e) (positionX e) (min e) (max e)
           (patterns e) (ctxCachedSettings e) c (ctx e) (measureText e).

(** The context receives one more operation. *)
Definition emit (op : CtxOp) (e : Engine) : Engine :=
  mkEngine (width e) (blockHeight e) (blockPaddingLeftRight e) (blockPaddingTopBottom e)
           (placeholderWidth e) (fontColor e) (queue e) (zoom e) (positionX e) (min e) (max e)
           (patterns e) (ctxCachedSettings e) (ctxCachedCalls e) (ctx e ++ [op]) (measureText e).

(** ** The drawing-state cache *)

Definition setCtxValue (field : string) (v : value) (e : Engine) : Engine :=
  if differs (ctxCachedSettings e !! field) v then
    set_ctxCachedSettings (<[field := v]> (ctxCachedSettings e)) (emit (SetProp field v) e)
  else e.

Definition callCtx (fn : string) (v : value) (e : Engine) : Engine :=
  if falsy (ctxCachedCalls e !! fn) || differs (ctxCachedCalls e !! fn) v then
    set_ctxCachedCalls (<[fn := v]> (ctxCachedCalls e)) (emit (CallFn fn v) e)
  else e.

(** ** Blocks and strokes *)

Definition renderBlock (x y w : Q) (h : option Q) (e : Engine) : Engine :=
  let truncatedX := Qmin (width e) (Qmax 0 x) in
  let delta := truncatedX - x in
  let width' := Qmin (width e - truncatedX) (Qmax 0 (w - delta)) in
  emit (FillRect truncatedX y width' (default (blockHeight e) h)) e.

Definition renderStroke (color : string) (x y w h : Q) (e : Engine) : Engine :=
  emit (StrokeRect x y w h)
    (emit (SetProp "lineWidth" (VNum (3 # 2)))
       (emit (SetLineDash []) (setCtxValue "strokeStyle" (VStr color) e))).

(** ** The viewport *)

Definition getRealView (e : Engine) : Q := round64 (width e / zoom e).

(** [setPositionX] returns the shift it applied. *)
Definition setPositionX (x : Q) (e : Engine) : Q * Engine :=
  let currentPos := positionX e in
  (round64 (x - currentPos), set_positionX x e).

Definition tryToChangePosition (positionDelta : Q) (e : Engine) : Engine :=
  let realView := getRealView e in
  if Qle_bool (round64 (round64 (positionX e + positionDelta) + realView)) (max e)
     && Qle_bool (min e) (round64 (positionX e + positionDelta))
  then snd (setPositionX (round64 (positionX e + positionDelta)) e)
  else if Qle_bool (round64 (positionX e + positionDelta)) (min e)
  then snd (setPositionX (min e) e)
  else if Qle_bool (max e) (round64 (round64 (positionX e + positionDelta) + realView))
  then snd (setPositionX (round64 (max e - realView)) e)
  else e.

(** ** The render queue *)

Definition emptyBucket : Bucket := mkBucket [] [] [].

(** [getQueue] creates the bucket of a priority on its first use. *)
Definition getQueue (priority : Z) (e : Engine) : Bucket * Engine :=
  match getProp (queue e) priority with
  | Some b => (b, e)
  | None => (emptyBucket, set_queue (setProp (queue e) priority emptyBucket) e)
  end.

(** [rect.pattern || 'none']: a missing and an empty pattern name are falsy. *)
Definition patternOrNone (p : option string) : string :=
  match p with
  | None => "none"
  | Some s => if String.eqb s EmptyString then "none" else s
  end.

Definition withPattern (p : string) (r : Rect) : Rect :=
  mkRect (rect_color r) (Some p) (rect_x r) (rect_y r) (rect_w r) (rect_h r).

(** How a call ends: normally, with a [TypeError], or after it has reached
    a member of [Object.prototype] under an inherited name, which it may
    write to or fail on: from there on the objects are not those of the
    model. *)
Inductive Completion : Type :=
| Normal
| TypeError
| Outside.

(** [o[k]] read as a condition, for a dictionary [o] whose own properties
    are objects: an own property is truthy, and so is the member of
    [Object.prototype] that answers for an inherited name. *)
Definition hasProp {V : Type} (o : list (string * V)) (k : string) : bool :=
  bool_decide (is_Some (getProp o k)) || isPrototypeName k.

(** [addRect] receives a reference to the caller's rect object: it assigns
    the object's [pattern] and pushes the reference.  The two dictionaries
    are read along the prototype chain: under an inherited pattern name
    [queue.rect[pattern]] is a member of [Object.prototype], and under an
    inherited colour name [queue.rect[pattern][color]] is one, which has no
    [push].  A reference that denotes no object cannot be passed; it is
    left alone. *)
Definition addRect (rect : loc) (priority : Z) (s : Heap * Engine)
    : Completion * (Heap * Engine) :=
  let (h, e) := s in
  match h !! rect with
  | None => (Normal, (h, e))
  | Some r =>
      let (q, e1) := getQueue priority e in
      let pattern := patternOrNone (rect_pattern r) in
      let h' := <[rect := withPattern pattern r]> h in
      let store (rects : RectRenderQueue) :=
        set_queue (setProp (queue e1) priority (mkBucket (b_text q) (b_stroke q) rects)) e1 in
      let rects1 :=
        if hasProp (b_rect q) pattern then b_rect q else setProp (b_rect q) pattern [] in
      match getProp rects1 pattern with
      | None => (Outside, (h', e1))
      | Some colors =>
          let colors1 :=
            if hasProp colors (rect_color r) then colors
            else setProp colors (rect_color r) [] in
          match getProp colors1 (rect_color r) with
          | None => (TypeError, (h', store rects1))
          | Some items =>
              (Normal,
               (h', store (setProp rects1 pattern
                             (setProp colors1 (rect_color r) (items ++ [rect])))))
          end
      end
  end.

Definition addText (text : jsstring) (x y w : Q) (priority : Z) (e : Engine) : Engine :=
  match text with
  | [] => e
  | _ :: _ =>
      let textMaxWidth :=
        round64 (w - round64 (round64 (blockPaddingLeftRight e * 2)
                              - (if Qlt_bool x 0 then x else 0))) in
      if Qlt_bool 0 textMaxWidth then
        let (q, e1) := getQueue priority e in
        set_queue (setProp (queue e1) priority
                     (mkBucket (b_text q ++ [mkText text x y w textMaxWidth])
                               (b_stroke q) (b_rect q))) e1
      else e
  end.

Definition addStroke (stroke : Stroke) (priority : Z) (e : Engine) : Engine :=
  let (q, e1) := getQueue priority e in
  set_queue (setProp (queue e1) priority
               (mkBucket (b_text q) (b_stroke q ++ [stroke]) (b_rect q))) e1.

(** ** Resolution of the queue *)

(** [deltaX] of [renderRects]: the horizontal translation of the tile of
    the pattern [p] for a rect at [x]. *)
Definition deltaX (p : Pattern) (x : Q) : Q :=
  let fullDeltaX := round64 (x * pat_scale p) in
  round64 (fullDeltaX
           - round64 (inject_Z (Qfloor (round64 (fullDeltaX / pat_width p))) * pat_width p)).

(** The body of the innermost loop of [renderRects]: one rect of a colour
    run, under the pattern and the matrix of its pattern group. *)
Definition renderRect (pattern : option Pattern) (matrix : Matrix) (h : Heap)
    (e : Engine) (rect : loc) : Engine :=
  match h !! rect with
  | None => e
  | Some r =>
      let e1 :=
        match pattern with
        | Some p =>
            emit (PatternSetTransform (pat_pattern p)
                    (matrixTranslate matrix (deltaX p (rect_x r))
                       (round64 (rect_y r * pat_scale p)))) e
        | None => e
        end in
      renderBlock (rect_x r) (rect_y r) (rect_w r) (rect_h r) e1
  end.

(** One colour run of a pattern group. *)
Definition renderColor (pattern : option Pattern) (matrix : Matrix) (h : Heap)
    (e : Engine) (entry : string * list loc) : Engine :=
  let (color, items) := entry in
  let e1 :=
    match pattern with
    | None => setCtxValue "fillStyle" (VStr color) e
    | Some _ => e
    end in
  fold_left (renderRect pattern matrix h) items e1.

(** One pattern group.  The queue that [addRect] builds has no group under
    an inherited name, so that the registry is read here by the names of
    its own patterns. *)
Definition renderPattern (h : Heap) (e : Engine)
    (entry : string * list (string * list loc)) : Engine :=
  let (patternName, colors) := entry in
  let pattern :=
    if negb (String.eqb patternName "none") then patterns e !! patternName else None in
  let matrix :=
    match pattern with
    | Some p =>
        if negb (Qeq_bool (pat_scale p) 1)
        then matrixScale identityMatrix (round64 (1 / pat_scale p)) (round64 (1 / pat_scale p))
        else identityMatrix
    | None => identityMatrix
    end in
  let e1 :=
    match pattern with
    | Some p =>
        set_ctxCachedSettings (<["fillStyle" := VStr patternName]> (ctxCachedSettings e))
          (emit (SetProp "fillStyle" (VPattern (pat_pattern p))) e)
    | None => e
    end in
  fold_left (renderColor pattern matrix h) (ownEntries stringIndex colors) e1.

Definition renderRects (rects : RectRenderQueue) (h : Heap) (e : Engine) : Engine :=
  fold_left (renderPattern h) (ownEntries stringIndex rects) e.

(** The string [renderTexts] draws for a text: the text itself when it
    fits, its two ends around an ellipsis when it does not, nothing when
    there is no room. *)
Definition fitText (e : Engine) (text : jsstring) (textMaxWidth : Q) : jsstring :=
  let textWidth := measureText e text in
  if Qlt_bool textMaxWidth textWidth then
    let len := Z.of_nat (length text) in
    let avgCharWidth := round64 (textWidth / inject_Z len) in
    let maxChars :=
      Qfloor (round64 (round64 (textMaxWidth - placeholderWidth e) / avgCharWidth)) in
    let halfChars := round64 (round64 (inject_Z maxChars - 1) / 2) in
    if Qlt_bool 0 halfChars then
      slice text 0 (Qceiling halfChars) ++ [ellipsis]
        ++ slice text (Qfloor (round64 (inject_Z len - inject_Z (Qfloor halfChars)))) len
    else []
  else text.

(** The body of the loop of [renderTexts]. *)
Definition renderText (e : Engine) (t : Text) : Engine :=
  match fitText e (text_text t) (text_textMaxWidth t) with
  | [] => e
  | c :: text =>
      emit (FillText (c :: text)
              (round64 ((if Qlt_bool (text_x t) 0 then 0 else text_x t)
                        + blockPaddingLeftRight e))
              (round64 (round64 (text_y t + blockHeight e) - blockPaddingTopBottom e))) e
  end.

Definition renderTexts (texts : list Text) (e : Engine) : Engine :=
  fold_left renderText texts (setCtxValue "fillStyle" (VStr (fontColor e)) e).

Definition renderStrokes (strokes : list Stroke) (e : Engine) : Engine :=
  fold_left (fun e s => renderStroke (stroke_color s) (stroke_x s) (stroke_y s)
                          (stroke_w s) (stroke_h s) e) strokes e.

(** What [resolveQueue] does at one priority. *)
Definition resolvePriority (h : Heap) (e : Engine) (priority : Z) : Engine :=
  match getProp (queue e) priority with
  | None => e
  | Some q => renderStrokes (b_stroke q) (renderTexts (b_text q) (renderRects (b_rect q) h e))
  end.

(** The priorities in the order [resolveQueue] visits them:
    [Object.keys(queue).map(parseInt).sort()]. *)
Definition resolveOrder (e : Engine) : list Z :=
  sortDefault (map fst (ownEntries priorityIndex (queue e))).

Definition resolveQueue (h : Heap) (e : Engine) : Engine :=
  set_queue [] (fold_left (resolvePriority h) (resolveOrder e) e).

(** ** The pattern registry *)

(** What a pattern creator returns: the fill resource and, optionally, its
    own scale and width. *)
Record CreatorResult : Type := mkCreatorResult {
  cr_pattern : handle;
  cr_scale : option Q;
  cr_width : option Q
}.

Definition PatternCreator : Type := Engine -> CreatorResult.

(** [this.patterns[name]] read as a condition.  The registry answers for
    the names of its patterns and for the names it inherits: the members of
    [Object.prototype] and, once a pattern was stored under [__proto__]
    (the assignment makes that pattern object the prototype of the
    registry, and the registry keeps it under that key), the truthy fields
    of that object. *)
Definition registryAnswers (e : Engine) (name : string) : bool :=
  bool_decide (is_Some (patterns e !! name))
  || isPrototypeName name
  || match patterns e !! "__proto__"%string with
     | Some p =>
         (String.eqb name "scale" && negb (Qeq_bool (pat_scale p) 0))
         || (String.eqb name "width" && negb (Qeq_bool (pat_width p) 0))
         || String.eqb name "pattern"
     | None => false
     end.

Definition createBlockPattern (name : string) (creator : PatternCreator) (e : Engine) : Engine :=
  let r := creator e in
  set_patterns
    (<[name := mkPattern (default 1 (cr_scale r)) (default 10 (cr_width r)) (cr_pattern r)]>
       (patterns e)) e.

Section DefaultPatterns.
(** The configuration of a built-in pattern, and the table of the built-in
    pattern generators ([defaultPatterns], of the module [patterns]). *)
Variable Config : Type.
Variable defaultPatterns : string -> option (Config -> PatternCreator).

(** A built-in pattern descriptor: [{ name, type, config }]. *)
Record DefaultPatterns : Type := mkDefaultPatterns {
  dp_name : string;
  dp_type : string;
  dp_config : Config
}.

(** [defaultPatterns] lists the generators of the table.  For a kind that
    is none of them nothing is created (when the kind is the name of an
    inherited member, what [defaultPatterns[type]] answers is no generator
    either, and the call fails before anything is stored). *)
Definition createDefaultPattern (d : DefaultPatterns) (e : Engine) : Engine :=
  match defaultPatterns (dp_type d) with
  | Some defaultPattern => createBlockPattern (dp_name d) (defaultPattern (dp_config d)) e
  | None => e
  end.

Definition createCachedDefaultPattern (d : DefaultPatterns) (e : Engine) : Engine :=
  if registryAnswers e (dp_name d) then e else createDefaultPattern d e.
End DefaultPatterns.

Arguments dp_name {Config} _.
Arguments dp_type {Config} _.
Arguments dp_config {Config} _.
Arguments mkDefaultPatterns {Config} _ _ _.
Arguments createDefaultPattern {Config} _ _ _.
Arguments createCachedDefaultPattern {Config} _ _ _.

(** ** Vocabulary of the statements *)

(** The specification's [clamp(v, lo, hi)]. *)
Definition clamp (v lo hi : Q) : Q := Qmin hi (Qmax lo v).



(** Every text of the queue, over all priorities. *)
Definition queuedTexts (e : Engine) : list Text :=
  concat (map (fun pb => b_text (snd pb)) (queue e)).


(** ** Sample inputs *)

(** A context whose font is 6 pixels wide for every code unit. *)
Definition sampleMeasure (s : jsstring) : Q := 6 * inject_Z (Z.of_nat (length s)).

(** An engine 800 pixels wide with blocks of 16 pixels over the time domain
    0..1000, just after [reset]; the ellipsis is as wide as any code unit. *)
Definition sampleEngine : Engine :=
  mkEngine 800 16 4 3 (sampleMeasure [ellipsis]) "black" [] 1 0 0 1000 ∅ ∅ ∅ []
           sampleMeasure.

(** The label [abcdefghijklmnopqrst]. *)
Definition sampleLabel : jsstring := map N.of_nat (seq 97 20).

Definition sampleStroke (color : string) : Stroke := mkStroke color 0 0 10 10.

(** A frame with a stroke at priority 10 and a rect, a text and a stroke at
    priority 2. *)
Definition plainHeap : Heap :=
  <[0%nat := mkRect "red" None (-50) 0 100 (Some 10)]> ∅.

Definition sampleFrame : Heap * Engine :=
  snd (addRect 0%nat 2
         (plainHeap,
          addStroke (sampleStroke "ten") 10
            (addText sampleLabel 0 0 78 2
               (addStroke (sampleStroke "two") 2 sampleEngine)))).







(** The double 200.00000000000003. *)
Definition overshootDelta : Q := round64 (20000000000000003 # 100000000000000).

(** An engine one pixel wide at zoom 1, at position 0.5 in the time domain
    from 1e-20 to 1. *)
Definition tinyMin : Q := round64 (1 # 100000000000000000000).

Definition tinyMinEngine : Engine :=
  mkEngine 1 16 4 3 (sampleMeasure [ellipsis]) "black" [] 1 (1 # 2) tinyMin 1 ∅ ∅ ∅ []
           sampleMeasure.

(** A box of width 22.1 at x = -14.1, as doubles. *)
Definition tightWidth : Q := round64 (221 # 10).

Definition tightX : Q := round64 (- (141 # 10)).

(** The label [abcdefghijklmn] and an engine whose context measures 36/7
    pixels for a code unit on average, so that the label is 72 pixels wide;
    the ellipsis is 6 pixels wide. *)
Definition shortLabel : jsstring := map N.of_nat (seq 97 14).

Definition proportionalMeasure (s : jsstring) : Q :=
  Qred ((36 # 7) * inject_Z (Z.of_nat (length s))).

Definition proportionalEngine : Engine :=
  mkEngine 800 16 4 3 6 "black" [] 1 0 0 1000 ∅ ∅ ∅ [] proportionalMeasure.

(** A rect object of the colour [constructor], without a pattern. *)
Definition constructorHeap : Heap :=
  <[0%nat := mkRect "constructor" None 0 0 10 None]> ∅.

(** A label of twenty ellipses. *)
Definition dottedLabel : jsstring := repeat ellipsis 20.

(** The engine after [callCtx('rotate', 0)]. *)
Definition rotatedEngine : Engine := callCtx "rotate" (VNum 0) sampleEngine.

(** Modelled from the spec: the table [defaultPatterns] of the built-in
    pattern generators, which the source imports from the module
    [patterns]: the kinds stripes, dots, gradient, triangles and combined.
    Here every kind builds a tile of the configured width. *)
Definition sampleDefaultPatterns (type : string) : option (Q -> PatternCreator) :=
  if bool_decide (type ∈ ["stripes"; "dots"; "gradient"; "triangles"; "combined"]%string)
  then Some (fun config e => mkCreatorResult (size (patterns e)) None (Some config))
  else None.

Definition stripesDescriptor : DefaultPatterns Q :=
  mkDefaultPatterns "p"%string "stripes"%string 12.

Definition zigzagDescriptor : DefaultPatterns Q :=
  mkDefaultPatterns "p"%string "zigzag"%string 12.

(** A stripes pattern under the name [toString]. *)
Definition toStringDescriptor : DefaultPatterns Q :=
  mkDefaultPatterns "toString"%string "stripes"%string 12.

(** ** Further vocabulary *)

(** Every text of a queue, over all priorities. *)
Definition textsOf (q : list (Z * Bucket)) : list Text :=
  concat (map (fun pb => b_text (snd pb)) q).

(** The number of ellipses of a string. *)
Definition ellipses (s : jsstring) : nat := count_occ N.eq_dec s ellipsis.




(** Integer inequalities read in the rationals. *)
Ltac inject_in H :=
  first [rewrite Zle_Qle in H | rewrite Zlt_Qlt in H];
  unfold Z.sub in H;
  repeat first [rewrite inject_Z_plus in H | rewrite inject_Z_mult in H
               | rewrite inject_Z_opp in H];
  change (inject_Z 2) with 2 in H; change (inject_Z 1) with 1 in H.

Ltac inject_goal :=
  unfold Z.sub;
  repeat first [rewrite inject_Z_plus | rewrite inject_Z_mult | rewrite inject_Z_opp];
  change (inject_Z 2) with 2; change (inject_Z 1) with 1.

(** * Properties *)

(** ** Comparisons and clamping *)

Lemma Qle_bool_false (a b : Q) : Qle_bool a b = false -> b < a.
Proof.
  intros H. apply Qnot_le_lt. intros Hle.
  apply Qle_bool_iff in Hle. congruence.
Qed.

Lemma Qlt_bool_true (a b : Q) : Qlt_bool a b = true <-> a < b.
Proof.
  unfold Qlt_bool. split.
  - intros H. apply Qle_bool_false. now destruct (Qle_bool b a).
  - intros H. destruct (Qle_bool b a) eqn:E; [|reflexivity].
    apply Qle_bool_iff in E. lra.
Qed.

Lemma Qlt_bool_false (a b : Q) : Qlt_bool a b = false <-> b <= a.
Proof.
  unfold Qlt_bool. rewrite negb_false_iff. apply Qle_bool_iff.
Qed.

(** On a non-empty interval [clamp] is the usual clamping. *)
Lemma clamp_spec (v lo hi : Q) :
  lo <= hi ->
  lo <= clamp v lo hi <= hi /\
  (v < lo -> clamp v lo hi == lo) /\
  (hi < v -> clamp v lo hi == hi) /\
  (lo <= v <= hi -> clamp v lo hi == v).
Proof.
  intros Hle. unfold clamp.
  destruct (Q.max_spec lo v) as [[H1 E1]|[H1 E1]];
    destruct (Q.min_spec hi (Qmax lo v)) as [[H2 E2]|[H2 E2]];
    rewrite ?E2, ?E1 in *; repeat split; intros; lra.
Qed.

(** ** Rounding to the nearest double *)

Lemma pow2_pos e : 0 < pow2 e.
Proof. apply Qpower_0_lt. reflexivity. Qed.

Lemma pow2_plus a b : pow2 (a + b) == pow2 a * pow2 b.
Proof. apply Qpower_plus. discriminate. Qed.

Lemma pow2_succ a : pow2 (a + 1) == 2 * pow2 a.
Proof. rewrite pow2_plus. change (pow2 1) with 2. ring. Qed.

Lemma pow2_le a b : (a <= b)%Z -> pow2 a <= pow2 b.
Proof. intros H. apply Qpower_le_compat_l; [exact H | discriminate]. Qed.

Lemma pow2_lt_inv a b : pow2 a < pow2 b -> (a < b)%Z.
Proof. intros H. apply (Qpower_lt_compat_l_inv 2); [exact H | reflexivity]. Qed.

Lemma pow2_Z n : (0 <= n)%Z -> pow2 n == inject_Z (2 ^ n).
Proof. intros H. unfold pow2. now rewrite Zpower_Qpower. Qed.

Lemma pow2_sub a b : pow2 (a - b) * pow2 b == pow2 a.
Proof. rewrite <- pow2_plus. now replace (a - b + b)%Z with a by ring. Qed.

Lemma log2_bounds (n : Z) : (0 < n)%Z ->
  pow2 (Z.log2 n) <= inject_Z n /\ inject_Z n < 2 * pow2 (Z.log2 n).
Proof.
  intros H. destruct (Z.log2_spec n H) as [H1 H2].
  pose proof (Z.log2_nonneg n) as H0.
  rewrite <- pow2_succ, !pow2_Z by lia.
  rewrite <- Zle_Qle, <- Zlt_Qlt. replace (Z.log2 n + 1)%Z with (Z.succ (Z.log2 n)) by lia.
  split; assumption.
Qed.

(** A positive number lies in the binade of its [ilog2]. *)
Lemma ilog2_spec q : 0 < q -> pow2 (ilog2 q) <= q /\ q < pow2 (ilog2 q + 1).
Proof.
  intros Hq. destruct q as [n d].
  assert (Hn : (0 < n)%Z).
  { unfold Qlt in Hq. cbn in Hq. lia. }
  destruct (log2_bounds n Hn) as [Ha1 Ha2].
  destruct (log2_bounds (Z.pos d) eq_refl) as [Hb1 Hb2].
  unfold ilog2. cbn [Qnum Qden].
  set (a := Z.log2 n) in *. set (b := Z.log2 (Z.pos d)) in *.
  pose proof (pow2_sub a b) as Hk. pose proof (pow2_pos a) as Pa.
  pose proof (pow2_pos b) as Pb. pose proof (pow2_pos (a - b)) as Pk.
  assert (HD : 0 < inject_Z (Z.pos d)) by (rewrite <- (Zlt_Qlt 0); lia).
  assert (Hq' : (n # d) * inject_Z (Z.pos d) == inject_Z n).
  { rewrite (Qmake_Qdiv n d). field. lra. }
  set (q := n # d) in *. set (N := inject_Z n) in *. set (D := inject_Z (Z.pos d)) in *.
  destruct (Qle_bool (pow2 (a - b)) q) eqn:E.
  - apply Qle_bool_iff in E. split; [exact E|].
    rewrite pow2_succ.
    apply (Qmult_lt_r _ _ D HD). nra.
  - assert (E' : q < pow2 (a - b)) by now apply Qle_bool_false.
    replace (a - b - 1 + 1)%Z with (a - b)%Z by ring. split; [|exact E'].
    assert (Hh : pow2 (a - b) == 2 * pow2 (a - b - 1)).
    { rewrite <- pow2_succ. now replace (a - b - 1 + 1)%Z with (a - b)%Z by ring. }
    pose proof (pow2_pos (a - b - 1)) as Pk1.
    apply (Qmult_le_r _ _ D HD). nra.
Qed.

Lemma ilog2_mono x y : 0 < x -> x <= y -> (ilog2 x <= ilog2 y)%Z.
Proof.
  intros Hx Hxy.
  destruct (ilog2_spec x Hx) as [H1 _].
  destruct (ilog2_spec y) as [_ H2]; [lra|].
  assert (H : pow2 (ilog2 x) < pow2 (ilog2 y + 1)) by lra.
  apply pow2_lt_inv in H. lia.
Qed.

Lemma ilog2_unique q k : pow2 k <= q -> q < pow2 (k + 1) -> ilog2 q = k.
Proof.
  intros H1 H2. pose proof (pow2_pos k) as Pk.
  destruct (ilog2_spec q) as [H3 H4]; [lra|].
  assert (A : pow2 k < pow2 (ilog2 q + 1)) by lra.
  assert (B : pow2 (ilog2 q) < pow2 (k + 1)) by lra.
  apply pow2_lt_inv in A, B. lia.
Qed.

Lemma rne_cases x : rne x = Qfloor x \/ rne x = (Qfloor x + 1)%Z.
Proof.
  unfold rne. destruct (Qcompare _ _); [destruct (Z.even _)|..]; auto.
Qed.

(** The nearest integer is at most one half away. *)
Lemma rne_bounds x :
  inject_Z (rne x) - (1 # 2) <= x /\ x <= inject_Z (rne x) + (1 # 2).
Proof.
  pose proof (Qfloor_le x) as H1. pose proof (Qlt_floor x) as H2.
  rewrite inject_Z_plus in H2. change (inject_Z 1) with 1 in H2.
  unfold rne. destruct (Qcompare_spec (x - inject_Z (Qfloor x)) (1 # 2)).
  - destruct (Z.even _); rewrite ?inject_Z_plus; change (inject_Z 1) with 1; lra.
  - lra.
  - rewrite inject_Z_plus. change (inject_Z 1) with 1. lra.
Qed.

Lemma rne_comp x y : x == y -> rne x = rne y.
Proof.
  intros H. unfold rne. rewrite (Qfloor_comp x y H).
  assert (E : x - inject_Z (Qfloor y) == y - inject_Z (Qfloor y)) by (rewrite H; reflexivity).
  now rewrite (Qcompare_comp _ _ E (1 # 2) (1 # 2) (Qeq_refl _)).
Qed.

Lemma rne_Z n : rne (inject_Z n) = n.
Proof.
  unfold rne. rewrite Qfloor_Z.
  assert (E : Qcompare (inject_Z n - inject_Z n) (1 # 2) = Lt).
  { apply Qlt_alt. setoid_replace (inject_Z n - inject_Z n) with 0 using relation Qeq by ring. reflexivity. }
  now rewrite E.
Qed.

Lemma rne_mono x y : x <= y -> (rne x <= rne y)%Z.
Proof.
  intros H. pose proof (Qfloor_resp_le x y H) as Hf.
  destruct (Z.eq_dec (Qfloor x) (Qfloor y)) as [Ef|Nf].
  - unfold rne. rewrite Ef.
    destruct (Qcompare_spec (x - inject_Z (Qfloor y)) (1 # 2));
      destruct (Qcompare_spec (y - inject_Z (Qfloor y)) (1 # 2));
      try (destruct (Z.even (Qfloor y))); try lia; exfalso; lra.
  - destruct (rne_cases x) as [-> | ->]; destruct (rne_cases y) as [-> | ->]; lia.
Qed.

Lemma rne_ge n x : inject_Z n <= x -> (n <= rne x)%Z.
Proof. intros H. apply rne_mono in H. now rewrite rne_Z in H. Qed.

Lemma rne_le n x : x <= inject_Z n -> (rne x <= n)%Z.
Proof. intros H. apply rne_mono in H. now rewrite rne_Z in H. Qed.

(** Rounding to the nearest integer is odd: a tie goes to the even
    integer on either side of zero. *)
Lemma rne_opp x : rne (- x) = (- rne x)%Z.
Proof.
  pose proof (Qfloor_le x) as H1. pose proof (Qlt_floor x) as H2.
  rewrite inject_Z_plus in H2. change (inject_Z 1) with 1 in H2.
  set (f := Qfloor x) in *.
  destruct (Qeq_dec x (inject_Z f)) as [E|E].
  - assert (E' : - x == inject_Z (- f)) by (rewrite inject_Z_opp, E; reflexivity).
    rewrite (rne_comp _ _ E'), (rne_comp _ _ E), !rne_Z. reflexivity.
  - assert (Hf : Qfloor (- x) = (- f - 1)%Z).
    { apply Z.le_antisymm.
      - apply Z.lt_succ_r. rewrite Zlt_Qlt.
        eapply Qle_lt_trans; [apply Qfloor_le|].
        replace (Z.succ (- f - 1)) with (- f)%Z by lia. rewrite inject_Z_opp. lra.
      - rewrite <- (Qfloor_Z (- f - 1)). apply Qfloor_resp_le.
        unfold Z.sub. rewrite !inject_Z_plus, !inject_Z_opp. change (inject_Z 1) with 1. lra. }
    unfold rne. rewrite Hf. fold f.
    assert (I : inject_Z (- f - 1) == - inject_Z f - 1).
    { unfold Z.sub. rewrite !inject_Z_plus, !inject_Z_opp. reflexivity. }
    assert (Ev : Z.even (- f - 1) = negb (Z.even f)).
    { replace (- f - 1)%Z with (- (f + 1))%Z by lia.
      rewrite Z.even_opp, Z.even_add. destruct (Z.even f); reflexivity. }
    destruct (Qcompare_spec (x - inject_Z f) (1 # 2)) as [C|C|C];
      destruct (Qcompare_spec (- x - inject_Z (- f - 1)) (1 # 2)) as [D|D|D];
      rewrite I in D; try (exfalso; lra); try lia.
    rewrite Ev. destruct (Z.even f); cbn; lia.
Qed.

Lemma Qabs_nonneg_eq x : 0 <= x -> Qabs x = x.
Proof.
  destruct x as [n d]. unfold Qle. cbn. intros H.
  f_equal. apply Z.abs_eq. lia.
Qed.

Lemma Qabs_opp_eq x : Qabs (- x) = Qabs x.
Proof. destruct x as [n d]. unfold Qabs, Qopp. cbn. now rewrite Z.abs_opp. Qed.

Lemma round64_eq q :
  round64 q == inject_Z (rne (q / pow2 (ulpExp q))) * pow2 (ulpExp q).
Proof. unfold round64. apply Qred_correct. Qed.

Lemma round64_zero q : q == 0 -> round64 q = 0.
Proof.
  intros H. unfold round64.
  change 0 with (Qred 0). apply Qred_complete.
  assert (E : q / pow2 (ulpExp q) == inject_Z 0).
  { unfold Qdiv. rewrite (Qmult_comp q 0 H _ _ (Qeq_refl (/ pow2 (ulpExp q)))). ring. }
  rewrite (rne_comp _ _ E), rne_Z. ring.
Qed.

Lemma ulpExp_comp x y : ~ x == 0 -> x == y -> ulpExp x = ulpExp y.
Proof.
  intros Hx H. unfold ulpExp. f_equal. f_equal.
  assert (Px : 0 < Qabs x).
  { pose proof (Qabs_nonneg x). destruct (Qeq_dec (Qabs x) 0) as [E|E]; [|lra].
    exfalso. apply Hx. pose proof (Qle_Qabs x). pose proof (Qle_Qabs (- x)).
    rewrite Qabs_opp in *. lra. }
  destruct (ilog2_spec _ Px) as [H1 H2].
  symmetry. apply ilog2_unique; rewrite <- H; assumption.
Qed.

(** The double of a number does not depend on the fraction that denotes
    the number. *)
Lemma round64_comp x y : x == y -> round64 x = round64 y.
Proof.
  intros H. destruct (Qeq_dec x 0) as [E|E].
  - rewrite (round64_zero x E). symmetry. apply round64_zero. now rewrite <- H.
  - unfold round64. rewrite <- (ulpExp_comp x y E H).
    apply Qred_complete.
    assert (E' : x / pow2 (ulpExp x) == y / pow2 (ulpExp x)).
    { unfold Qdiv. apply Qmult_comp; [exact H | reflexivity]. }
    now rewrite (rne_comp _ _ E').
Qed.

Lemma round64_nonneg q : 0 <= q -> 0 <= round64 q.
Proof.
  intros H. rewrite round64_eq. pose proof (pow2_pos (ulpExp q)) as P.
  apply Qmult_le_0_compat; [|lra].
  change 0 with (inject_Z 0). rewrite <- Zle_Qle. apply rne_ge.
  change (inject_Z 0) with 0. apply Qle_shift_div_l; [exact P|lra].
Qed.

Lemma round64_nonpos q : q <= 0 -> round64 q <= 0.
Proof.
  intros H. rewrite round64_eq. pose proof (pow2_pos (ulpExp q)) as P.
  assert (Hr : inject_Z (rne (q / pow2 (ulpExp q))) <= 0).
  { change 0 with (inject_Z 0). rewrite <- Zle_Qle. apply rne_le.
    change (inject_Z 0) with 0. apply Qle_shift_div_r; [exact P|lra]. }
  nra.
Qed.

(** Rounding is monotone on the positive numbers: within a binade because
    rounding to the nearest integer is, across binades because the powers
    of 2 are doubles. *)
Lemma round64_mono_pos x y : 0 < x -> x <= y -> round64 x <= round64 y.
Proof.
  intros Hx Hxy. assert (Hy : 0 < y) by lra.
  rewrite (round64_eq x), (round64_eq y).
  pose proof (pow2_pos (ulpExp x)) as Px. pose proof (pow2_pos (ulpExp y)) as Py.
  assert (Hl : (ilog2 x <= ilog2 y)%Z) by now apply ilog2_mono.
  destruct (ilog2_spec x Hx) as [X1 X2]. destruct (ilog2_spec y Hy) as [Y1 Y2].
  unfold ulpExp in *. rewrite (Qabs_nonneg_eq x), (Qabs_nonneg_eq y) in * by lra.
  set (ex := Z.max (-1074) (ilog2 x - 52)) in *.
  set (ey := Z.max (-1074) (ilog2 y - 52)) in *.
  assert (Hexy : (ex <= ey)%Z) by lia.
  destruct (Z.eq_dec ex ey) as [E|E].
  - rewrite <- E. apply Qmult_le_compat_r; [|lra].
    rewrite <- Zle_Qle. apply rne_mono.
    apply Qmult_le_compat_r; [exact Hxy|]. apply Qlt_le_weak. now apply Qinv_lt_0_compat.
  - assert (Ey : ey = (ilog2 y - 52)%Z) by lia.
    assert (My : inject_Z (2 ^ 52) <= inject_Z (rne (y / pow2 ey))).
    { rewrite <- Zle_Qle. apply rne_ge.
      rewrite <- pow2_Z by lia. apply Qle_shift_div_l; [exact Py|].
      rewrite <- pow2_plus. replace (52 + ey)%Z with (ilog2 y) by lia. exact Y1. }
    assert (Mx : inject_Z (rne (x / pow2 ex)) <= inject_Z (2 ^ 53)).
    { rewrite <- Zle_Qle. apply rne_le.
      rewrite <- pow2_Z by lia. apply Qle_shift_div_r; [exact Px|].
      rewrite <- pow2_plus.
      assert (pow2 (ilog2 x + 1) <= pow2 (53 + ex)) by (apply pow2_le; lia). lra. }
    assert (Hp : pow2 (53 + ex) <= pow2 (52 + ey)) by (apply pow2_le; lia).
    rewrite !pow2_plus in Hp. rewrite !pow2_Z in Hp by lia.
    assert (0 < inject_Z (2 ^ 52)) by reflexivity.
    assert (0 < inject_Z (2 ^ 53)) by reflexivity.
    apply Qle_trans with (inject_Z (2 ^ 53) * pow2 ex).
    + apply Qmult_le_compat_r; [exact Mx | lra].
    + apply Qle_trans with (inject_Z (2 ^ 52) * pow2 ey); [exact Hp|].
      apply Qmult_le_compat_r; [exact My | lra].
Qed.

Lemma round64_opp x : round64 (- x) == - round64 x.
Proof.
  rewrite !round64_eq. unfold ulpExp. rewrite Qabs_opp_eq.
  set (e := Z.max (-1074) (ilog2 (Qabs x) - 52)).
  assert (E : - x / pow2 e == - (x / pow2 e)) by (unfold Qdiv; ring).
  rewrite (rne_comp _ _ E), rne_opp, inject_Z_opp. ring.
Qed.

(** Rounding is monotone. *)
Lemma round64_le x y : x <= y -> round64 x <= round64 y.
Proof.
  intros H. destruct (Qlt_le_dec 0 x) as [Hx|Hx].
  - now apply round64_mono_pos.
  - destruct (Qlt_le_dec y 0) as [Hy|Hy].
    + assert (Hm : round64 (- y) <= round64 (- x)) by (apply round64_mono_pos; lra).
      rewrite !round64_opp in Hm. lra.
    + apply Qle_trans with 0; [now apply round64_nonpos | now apply round64_nonneg].
Qed.

(** A number with a mantissa of at most 53 bits and no bit below 2^-1074
    is a double. *)
Lemma round64_exact q m j :
  (0 < m < 2 ^ 53)%Z -> (-1074 <= j)%Z -> q == inject_Z m * pow2 j -> round64 q == q.
Proof.
  intros Hm Hj Hq. pose proof (pow2_pos j) as Pj.
  assert (Hm1 : 0 < inject_Z m) by (rewrite <- (Zlt_Qlt 0); lia).
  assert (Hm2 : inject_Z m < inject_Z (2 ^ 53)) by (rewrite <- Zlt_Qlt; lia).
  assert (Hpos : 0 < q) by (rewrite Hq; nra).
  destruct (ilog2_spec q Hpos) as [L1 L2].
  assert (HL : (ilog2 q < 53 + j)%Z).
  { apply pow2_lt_inv. rewrite pow2_plus, (pow2_Z 53) by lia. nra. }
  rewrite round64_eq. unfold ulpExp. rewrite (Qabs_nonneg_eq q) by lra.
  set (e := Z.max (-1074) (ilog2 q - 52)).
  assert (He : (e <= j)%Z) by lia.
  pose proof (pow2_pos e) as Pe.
  assert (E : q / pow2 e == inject_Z (m * 2 ^ (j - e))).
  { rewrite inject_Z_mult, <- pow2_Z by lia. rewrite Hq.
    rewrite <- (pow2_sub j e). field. lra. }
  rewrite (rne_comp _ _ E), rne_Z.
  rewrite inject_Z_mult, <- pow2_Z by lia. rewrite Hq.
  rewrite <- (pow2_sub j e). ring.
Qed.

(** The integers below 2^53 and their halves are doubles. *)
Lemma round64_Z n : (0 <= n < 2 ^ 53)%Z -> round64 (inject_Z n) == inject_Z n.
Proof.
  intros H. destruct (Z.eq_dec n 0%Z) as [->|N].
  - reflexivity.
  - apply (round64_exact _ n 0%Z); [lia | lia |]. change (pow2 0) with 1. ring.
Qed.

Lemma round64_half n : (0 <= n < 2 ^ 53)%Z -> round64 (inject_Z n / 2) == inject_Z n / 2.
Proof.
  intros H. destruct (Z.eq_dec n 0%Z) as [->|N].
  - reflexivity.
  - apply (round64_exact _ n (-1)%Z); [lia | lia |]. change (pow2 (-1)) with (1 # 2). field.
Qed.

(** A positive number that does not round to zero is at most twice its
    double. *)
Lemma round64_lower y : 0 < y -> ~ round64 y == 0 -> y <= 2 * round64 y.
Proof.
  intros Hy Hn. pose proof (round64_nonneg y (Qlt_le_weak _ _ Hy)) as H0.
  rewrite round64_eq in *. pose proof (pow2_pos (ulpExp y)) as P.
  set (r := rne (y / pow2 (ulpExp y))) in *.
  destruct (rne_bounds (y / pow2 (ulpExp y))) as [_ B]. fold r in B.
  assert (Hr : (1 <= r)%Z).
  { destruct (Z_lt_le_dec r 1%Z) as [Hlt|]; [|assumption]. exfalso.
    destruct (Z.eq_dec r 0%Z) as [E|E].
    - apply Hn. rewrite E. ring.
    - assert (Hneg : inject_Z r <= -1).
      { change (-1) with (inject_Z (-1)). rewrite <- Zle_Qle. lia. }
      nra. }
  assert (Hr' : 1 <= inject_Z r) by (change 1 with (inject_Z 1); rewrite <- Zle_Qle; lia).
  assert (Hs : y == (y / pow2 (ulpExp y)) * pow2 (ulpExp y)) by (field; lra).
  rewrite Hs at 1. nra.
Qed.


(** From here on [round64] is used through the lemmas above and computed
    on closed numbers only. *)
Opaque round64.

(** ** Blocks *)


(** ** The viewport *)

(** C3, as stated, fails at either edge.  On the sample engine (domain
    0..1000, span 800) a shift from 0 by 200.00000000000003 passes the test
    of the source, because the sum of the shifted position and the span
    rounds to 1000, and it is stored as it is, to the right of
    max - realView = 200.  And in the domain from 1e-20 to 1 with the span
    1, where max - min >= realView holds for the difference the doubles
    give, the position 0.5 is snapped to max - realView = 0, to the left of
    min. *)
Lemma tryToChangePosition_overshoots_by_rounding :
  getRealView sampleEngine <= max sampleEngine - min sampleEngine
  /\ round64 (round64 (positionX sampleEngine + overshootDelta) + getRealView sampleEngine)
     <= max sampleEngine
  /\ positionX (tryToChangePosition overshootDelta sampleEngine) = overshootDelta
  /\ max sampleEngine - getRealView sampleEngine < overshootDelta
  /\ round64 (max sampleEngine - getRealView sampleEngine) < overshootDelta
  /\ getRealView tinyMinEngine <= round64 (max tinyMinEngine - min tinyMinEngine)
  /\ positionX (tryToChangePosition 0 tinyMinEngine) < min tinyMinEngine.
Proof. repeat split; vm_compute; first [reflexivity | discriminate]. Qed.

(** C3, amended: with [target] the rounded sum of [positionX] and the shift
    and [targetEnd] the rounded sum of [target] and [realView],
    [tryToChangePosition] stores [target] when the source's test
    [min <= target] and [targetEnd <= max] passes, [min] when [target] is
    at or left of [min], and the rounded [max - realView] otherwise: the
    shift is never rejected.  When [min] is not right of the rounded
    [max - realView], as it is when [realView <= max - min] holds of the
    exact difference and [min] is a double, the stored position is at
    least [min]; it is at most the rounded [max - realView] when it was
    snapped to an edge, and else it satisfies the test of the source, that
    is [positionX + realView], rounded, is at most [max].  The domain and
    the span are not changed. *)
Theorem tryToChangePosition_snaps (positionDelta : Q) (e : Engine) :
  ~ zoom e == 0 ->
  let e' := tryToChangePosition positionDelta e in
  let realView := getRealView e in
  let target := round64 (positionX e + positionDelta) in
  let targetEnd := round64 (target + realView) in
  (min e <= target -> targetEnd <= max e -> positionX e' = target)
  /\ (target < min e -> positionX e' = min e)
  /\ (target == min e -> max e < targetEnd -> positionX e' = min e)
  /\ (min e < target -> max e < targetEnd -> positionX e' = round64 (max e - realView))
  /\ (realView <= max e - min e -> round64 (min e) == min e ->
      min e <= round64 (max e - realView))
  /\ (min e <= round64 (max e - realView) ->
      min e <= positionX e'
      /\ (positionX e' <= round64 (max e - realView)
          \/ positionX e' = target /\ round64 (positionX e' + realView) <= max e))
  /\ (min e' = min e /\ max e' = max e /\ getRealView e' = realView).
Proof.
  intros _. cbv zeta. unfold tryToChangePosition.
  set (rv := getRealView e).
  set (target := round64 (positionX e + positionDelta)).
  set (targetEnd := round64 (target + rv)).
  assert (Hend : round64 (target + rv) = targetEnd) by reflexivity.
  assert (Hedge : rv <= max e - min e -> round64 (min e) == min e ->
                  min e <= round64 (max e - rv)).
  { intros Hview Hmin. rewrite <- Hmin at 1. apply round64_le. lra. }
  assert (Hframe : forall x, min (snd (setPositionX x e)) = min e
                             /\ max (snd (setPositionX x e)) = max e
                             /\ getRealView (snd (setPositionX x e)) = rv)
    by (intros x; repeat split).
  assert (Hpos : forall x, positionX (snd (setPositionX x e)) = x) by reflexivity.
  clearbody targetEnd target rv.
  destruct (Qle_bool targetEnd (max e)) eqn:E1;
    [destruct (Qle_bool (min e) target) eqn:E2|]; cbn [andb].
  - apply Qle_bool_iff in E1, E2. rewrite Hpos.
    split; [reflexivity|]. split; [intros; exfalso; lra|].
    split; [intros; exfalso; lra|]. split; [intros; exfalso; lra|].
    split; [exact Hedge|]. split; [|apply Hframe].
    intros _. split; [exact E2|]. right. split; [reflexivity|]. now rewrite Hend.
  - apply Qle_bool_iff in E1. apply Qle_bool_false in E2.
    assert (E3 : Qle_bool target (min e) = true) by (apply Qle_bool_iff; lra).
    rewrite E3, Hpos.
    split; [intros; exfalso; lra|]. split; [reflexivity|].
    split; [reflexivity|]. split; [intros; exfalso; lra|].
    split; [exact Hedge|]. split; [|apply Hframe].
    intros Hmin. split; [apply Qle_refl|]. left. exact Hmin.
  - apply Qle_bool_false in E1.
    destruct (Qle_bool target (min e)) eqn:E3.
    + apply Qle_bool_iff in E3. rewrite Hpos.
      split; [intros; exfalso; lra|]. split; [reflexivity|].
      split; [reflexivity|]. split; [intros; exfalso; lra|].
      split; [exact Hedge|]. split; [|apply Hframe].
      intros Hmin. split; [apply Qle_refl|]. left. exact Hmin.
    + apply Qle_bool_false in E3.
      assert (E4 : Qle_bool (max e) targetEnd = true) by (apply Qle_bool_iff; lra).
      rewrite E4, Hpos.
      split; [intros; exfalso; lra|]. split; [intros; exfalso; lra|].
      split; [intros; exfalso; lra|]. split; [reflexivity|].
      split; [exact Hedge|]. split; [|apply Hframe].
      intros Hmin. split; [exact Hmin|]. left. apply Qle_refl.
Qed.

(** On the sample engine (span 800 in the domain 0..1000) a shift by 500
    stops at 200. *)
Lemma tryToChangePosition_snaps_witness :
  ~ zoom sampleEngine == 0
  /\ positionX (tryToChangePosition 500 sampleEngine) = 200.
Proof.
  assert (Hz : ~ zoom sampleEngine == 0) by (cbn; lra).
  split; [exact Hz|].
  destruct (tryToChangePosition_snaps 500 sampleEngine Hz) as (_ & _ & _ & H & _).
  rewrite H; vm_compute; reflexivity.
Defined.

(** ** The drawing-state cache *)

Lemma strict_eq_refl (v : value) : strict_eq v v = true.
Proof.
  destruct v; cbn.
  - apply Qeq_bool_iff. reflexivity.
  - apply String.eqb_refl.
  - apply Nat.eqb_refl.
Qed.

Lemma ctx_setCtxValue field v e :
  ctx (setCtxValue field v e)
  = ctx e ++ (if differs (ctxCachedSettings e !! field) v then [SetProp field v] else []).
Proof.
  unfold setCtxValue. destruct (differs _ _); cbn; [reflexivity|].
  now rewrite app_nil_r.
Qed.

Lemma cached_setCtxValue field v e :
  differs (ctxCachedSettings (setCtxValue field v e) !! field) v = false.
Proof.
  unfold setCtxValue. destruct (differs (ctxCachedSettings e !! field) v) eqn:E.
  - cbn. rewrite lookup_insert_eq. cbn. now rewrite strict_eq_refl.
  - exact E.
Qed.

Lemma setCtxValue_twice field v e :
  setCtxValue field v (setCtxValue field v e) = setCtxValue field v e.
Proof.
  unfold setCtxValue at 1. now rewrite cached_setCtxValue.
Qed.

(** C7, as stated, fails for [callCtx]: after [callCtx('rotate', 0)] the
    cached last argument of [rotate] is 0, it does not differ from 0, and a
    second [callCtx('rotate', 0)] invokes the operation all the same. *)
Lemma callCtx_repeats_falsy_argument :
  ctxCachedCalls rotatedEngine !! "rotate"%string = Some (VNum 0)
  /\ differs (ctxCachedCalls rotatedEngine !! "rotate"%string) (VNum 0) = false
  /\ ctx (callCtx "rotate" (VNum 0) rotatedEngine)
     = ctx rotatedEngine ++ [CallFn "rotate" (VNum 0)].
Proof. split; [|split]; vm_compute; reflexivity. Qed.

(** C7, amended: [setCtxValue] writes the field exactly when the cached
    value differs from the new one, and the cache then holds the new value;
    two consecutive calls with the same value write once when the cache did
    not hold the value and not at all when it did, so once after the caches
    were emptied; [callCtx] invokes the operation exactly when the cached
    last argument is missing or falsy, or differs from the new one, and the
    cache then holds the new argument. *)
Theorem ctx_cache_contract (field fn : string) (v : value) (e : Engine) :
  ctx (setCtxValue field v e)
  = ctx e ++ (if differs (ctxCachedSettings e !! field) v then [SetProp field v] else [])
  /\ differs (ctxCachedSettings (setCtxValue field v e) !! field) v = false
  /\ ctx (setCtxValue field v (setCtxValue field v e))
     = ctx e ++ (if differs (ctxCachedSettings e !! field) v then [SetProp field v] else [])
  /\ ctx (setCtxValue "fillStyle" (VStr "red")
            (setCtxValue "fillStyle" (VStr "red") (set_ctxCachedSettings ∅ e)))
     = ctx e ++ [SetProp "fillStyle" (VStr "red")]
  /\ ctx (callCtx fn v e)
     = ctx e ++ (if falsy (ctxCachedCalls e !! fn) || differs (ctxCachedCalls e !! fn) v
                 then [CallFn fn v] else [])
  /\ differs (ctxCachedCalls (callCtx fn v e) !! fn) v = false.
Proof.
  split; [apply ctx_setCtxValue|].
  split; [apply cached_setCtxValue|].
  split; [rewrite setCtxValue_twice; apply ctx_setCtxValue|].
  split; [reflexivity|].
  unfold callCtx.
  destruct (falsy (ctxCachedCalls e !! fn) || differs (ctxCachedCalls e !! fn) v) eqn:E.
  - cbn. rewrite lookup_insert_eq. cbn. now rewrite strict_eq_refl.
  - rewrite app_nil_r. apply orb_false_iff in E. tauto.
Qed.

(** ** Dictionaries *)

Section DictionaryFacts.
Context {K V : Type} `{EqDecision K}.
Implicit Types (o : list (K * V)) (k : K) (v : V).

Lemma getProp_setProp_eq o k v : getProp (setProp o k v) k = Some v.
Proof.
  induction o as [|[k' v'] o IH]; cbn.
  - now rewrite decide_True.
  - destruct (decide (k' = k)) as [->|Hne]; cbn.
    + now rewrite decide_True.
    + now rewrite decide_False.
Qed.

Lemma getProp_setProp_ne o k k' v : k <> k' -> getProp (setProp o k v) k' = getProp o k'.
Proof.
  intros Hne. induction o as [|[k0 v0] o IH]; cbn.
  - now rewrite decide_False.
  - destruct (decide (k0 = k)) as [->|Hne0]; cbn.
    + now rewrite !decide_False.
    + now rewrite IH.
Qed.
End DictionaryFacts.

(** ** The queue of texts *)

Lemma queue_getQueue p e :
  getProp (queue (snd (getQueue p e))) p = Some (fst (getQueue p e))
  /\ (forall p', p <> p' -> getProp (queue (snd (getQueue p e))) p' = getProp (queue e) p')
  /\ fst (getQueue p e) = default emptyBucket (getProp (queue e) p).
Proof.
  unfold getQueue. destruct (getProp (queue e) p) eqn:E; cbn.
  - auto.
  - rewrite getProp_setProp_eq. repeat split.
    intros p' Hne. now apply getProp_setProp_ne.
Qed.

Lemma textsOf_getProp q p b t :
  getProp q p = Some b -> In t (b_text b) -> In t (textsOf q).
Proof.
  unfold textsOf. induction q as [|[p' b'] q IH]; cbn; [discriminate|].
  intros Hget Hin. apply in_app_iff.
  destruct (decide (p' = p)); [left; congruence | right; auto].
Qed.

Lemma textsOf_setProp q p b t :
  In t (textsOf (setProp q p b)) -> In t (textsOf q) \/ In t (b_text b).
Proof.
  unfold textsOf. induction q as [|[p' b'] q IH]; cbn.
  - rewrite app_nil_r. auto.
  - destruct (decide (p' = p)); cbn; rewrite !in_app_iff; [tauto|].
    intros [H|H]; [tauto|]. destruct (IH H); tauto.
Qed.

(** A text of the queue after [addText] was there before, or it is the new
    one, and then it is not empty and has room. *)
Lemma addText_queuedTexts text x y w priority e t :
  In t (queuedTexts (addText text x y w priority e)) ->
  In t (queuedTexts e)
  \/ (t = mkText text x y w
            (round64 (w - round64 (round64 (blockPaddingLeftRight e * 2)
                                   - (if Qlt_bool x 0 then x else 0))))
      /\ text <> [] /\ 0 < text_textMaxWidth t).
Proof.
  unfold addText. destruct text as [|c text]; [auto|].
  set (tmw := round64 _). destruct (Qlt_bool 0 tmw) eqn:E; [|auto].
  apply Qlt_bool_true in E.
  destruct (getQueue priority e) as [q e1] eqn:G.
  pose proof (queue_getQueue priority e) as (_ & _ & Hq). rewrite G in Hq. cbn in Hq.
  unfold queuedTexts. cbn. intros H. apply textsOf_setProp in H. cbn in H.
  destruct H as [H|H].
  - left. revert H. unfold getQueue in G.
    destruct (getProp (queue e) priority); inversion G; subst; cbn; [auto|].
    intros H. apply textsOf_setProp in H. cbn in H. tauto.
  - apply in_app_iff in H. destruct H as [H|[<-|[]]].
    + left. subst q. destruct (getProp (queue e) priority) eqn:E'; cbn in H; [|tauto].
      eapply textsOf_getProp; eauto.
    + right. cbn. split; [reflexivity|]. split; [discriminate|exact E].
Qed.

(** The conditional of the source is a minimum. *)
Lemma textMaxWidth_rounded (x w pad : Q) :
  round64 (w - round64 (round64 (pad * 2) - (if Qlt_bool x 0 then x else 0)))
  = round64 (w - round64 (round64 (pad * 2) - Qmin x 0)).
Proof.
  assert (E : (if Qlt_bool x 0 then x else 0) == Qmin x 0).
  { destruct (Qlt_bool x 0) eqn:H.
    - apply Qlt_bool_true in H. rewrite Q.min_l by lra. reflexivity.
    - apply Qlt_bool_false in H. rewrite Q.min_r by lra. reflexivity. }
  assert (E2 : round64 (round64 (pad * 2) - (if Qlt_bool x 0 then x else 0))
               = round64 (round64 (pad * 2) - Qmin x 0)).
  { apply round64_comp. now rewrite E. }
  now rewrite E2.
Qed.

(** C5, as stated, fails: for a box of width 22.1 at x = -14.1 on the
    sample engine (padding 4) the width of the claim is positive, in exact
    arithmetic and in the doubles alike, yet the source, which subtracts
    the rounded sum 8 + 14.1 = 22.1 from the width, finds no room and drops
    the text. *)
Lemma addText_drops_a_box_with_room :
  0 < tightWidth - 2 * blockPaddingLeftRight sampleEngine - Qmax 0 (- tightX)
  /\ 0 < round64 (round64 (tightWidth - round64 (2 * blockPaddingLeftRight sampleEngine))
                  - Qmax 0 (- tightX))
  /\ sampleLabel <> []
  /\ addText sampleLabel tightX 0 tightWidth 0 sampleEngine = sampleEngine.
Proof. repeat split; vm_compute; first [reflexivity | discriminate]. Qed.

(** C5, amended: with [textMaxWidth] the double the source computes,
    [w - (2 * blockPaddingLeftRight - min(x, 0))] with every operation
    rounded, [addText] leaves the engine as it is when
    [textMaxWidth <= 0]; when [textMaxWidth > 0] it appends to the texts of
    the priority one item with that [textMaxWidth]; every text of the queue
    after the call that was not there before has that positive
    [textMaxWidth]. *)
Theorem addText_textMaxWidth (text : jsstring) (x y w : Q) (priority : Z) (e : Engine) :
  let textMaxWidth :=
    round64 (w - round64 (round64 (blockPaddingLeftRight e * 2) - Qmin x 0)) in
  let e' := addText text x y w priority e in
  let q := default emptyBucket (getProp (queue e) priority) in
  (textMaxWidth <= 0 -> e' = e)
  /\ (0 < textMaxWidth -> text <> [] ->
      exists t,
        text_text t = text /\ text_textMaxWidth t = textMaxWidth
        /\ getProp (queue e') priority
           = Some (mkBucket (b_text q ++ [t]) (b_stroke q) (b_rect q))
        /\ forall p, priority <> p -> getProp (queue e') p = getProp (queue e) p)
  /\ (forall t, In t (queuedTexts e') ->
      In t (queuedTexts e)
      \/ (text_textMaxWidth t = textMaxWidth /\ 0 < text_textMaxWidth t)).
Proof.
  cbv zeta.
  pose proof (textMaxWidth_rounded x w (blockPaddingLeftRight e)) as Heq.
  split; [|split].
  - intros Hle. unfold addText. destruct text; [reflexivity|].
    rewrite Heq. rewrite (proj2 (Qlt_bool_false _ _)); [reflexivity | lra].
  - intros Hpos Hne. unfold addText. destruct text as [|c text]; [congruence|].
    rewrite Heq. rewrite (proj2 (Qlt_bool_true _ _)) by lra.
    pose proof (queue_getQueue priority e) as (_ & Hother & Hq).
    destruct (getQueue priority e) as [q e1]. cbn in Hother, Hq. subst q.
    eexists (mkText (c :: text) x y w _).
    split; [|split; [|split]].
    + reflexivity.
    + reflexivity.
    + cbn. apply getProp_setProp_eq.
    + intros p Hp. cbn. rewrite getProp_setProp_ne by exact Hp. now apply Hother.
  - intros t Ht. apply addText_queuedTexts in Ht. destruct Ht as [Ht|(-> & _ & Hpos)].
    + now left.
    + right. cbn in *. rewrite Heq in *. split; [reflexivity | exact Hpos].
Qed.

(** On the sample engine (padding 4) a label in a box of width 78 at x = 0
    is queued with [textMaxWidth] 70; the same box at x = -75 is dropped. *)
Lemma addText_textMaxWidth_witness :
  0 < round64 (78 - round64 (round64 (blockPaddingLeftRight sampleEngine * 2) - Qmin 0 0))
  /\ sampleLabel <> []
  /\ round64 (78 - round64 (round64 (blockPaddingLeftRight sampleEngine * 2) - Qmin (-75) 0))
     <= 0
  /\ (exists t, text_textMaxWidth t = 70
                /\ getProp (queue (addText sampleLabel 0 0 78 0 sampleEngine)) 0%Z
                   = Some (mkBucket [t] [] []))
  /\ addText sampleLabel (-75) 0 78 0 sampleEngine = sampleEngine.
Proof.
  assert (Hpos : 0 < round64 (78 - round64 (round64 (blockPaddingLeftRight sampleEngine * 2)
                                            - Qmin 0 0)))
    by (vm_compute; reflexivity).
  assert (Hne : sampleLabel <> []) by discriminate.
  assert (Hle : round64 (78 - round64 (round64 (blockPaddingLeftRight sampleEngine * 2)
                                       - Qmin (-75) 0)) <= 0)
    by (vm_compute; discriminate).
  split; [exact Hpos|]. split; [exact Hne|]. split; [exact Hle|].
  destruct (addText_textMaxWidth sampleLabel 0 0 78 0 sampleEngine) as (_ & Henq & _).
  destruct (addText_textMaxWidth sampleLabel (-75) 0 78 0 sampleEngine) as (Hdrop & _).
  split.
  - destruct (Henq Hpos Hne) as (t & _ & Hw & Hq & _).
    exists t. split; [rewrite Hw; vm_compute; reflexivity | exact Hq].
  - exact (Hdrop Hle).
Defined.

(** C10: [addText] with the empty text leaves the engine, and so the queue,
    as it is, whatever the box; a text that [addText] adds to the queue is
    the non-empty text of the call. *)
Theorem addText_empty_text (text : jsstring) (x y w : Q) (priority : Z) (e : Engine) :
  addText [] x y w priority e = e
  /\ forall t, In t (queuedTexts (addText text x y w priority e)) ->
       In t (queuedTexts e) \/ (text_text t = text /\ text <> []).
Proof.
  split; [reflexivity|].
  intros t Ht. apply addText_queuedTexts in Ht. destruct Ht as [Ht|(-> & Hne & _)].
  - now left.
  - right. split; [reflexivity | exact Hne].
Qed.

(** The text queued on the sample engine is the label of the call. *)
Lemma addText_empty_text_witness :
  addText [] 0 0 78 0 sampleEngine = sampleEngine
  /\ forall t, In t (queuedTexts (addText sampleLabel 0 0 78 0 sampleEngine)) ->
       text_text t = sampleLabel.
Proof.
  destruct (addText_empty_text sampleLabel 0 0 78 0 sampleEngine) as (Hempty & Hin).
  split; [exact Hempty|].
  intros t Ht. destruct (Hin t Ht) as [[]|[Htext _]]. exact Htext.
Defined.

(** ** The queue of rects *)

(** C9, as stated, fails for a colour that is the name of an inherited
    member: a rect of the colour [constructor] gets its pattern, but the
    colour map of ['none'] answers for [constructor] with the inherited
    member, no run is created, and the call ends with a [TypeError]: the
    bucket holds no rect. *)
Lemma addRect_throws_for_an_inherited_colour :
  fst (addRect 0%nat 0 (constructorHeap, sampleEngine)) = TypeError
  /\ fst (snd (addRect 0%nat 0 (constructorHeap, sampleEngine))) !! 0%nat
     = Some (mkRect "constructor" (Some "none"%string) 0 0 10 None)
  /\ queue (snd (snd (addRect 0%nat 0 (constructorHeap, sampleEngine))))
     = [(0%Z, mkBucket [] [] [("none"%string, [])])].
Proof. repeat split; vm_compute; reflexivity. Qed.

(** C9, amended: for a rect object without a pattern, or with an empty
    one, [addRect] writes ['none'] into the object it was given and changes
    nothing else of it nor any other object.  When the colour is not the
    name of an inherited member, or the colour map of ['none'] has a run of
    its own under it, the call ends normally and the reference to that
    object is what it appends to the run of its colour, the texts and the
    strokes of the bucket being unchanged; for an inherited colour name
    without such a run the call ends with a [TypeError] and the colour map
    is as it was. *)
Theorem addRect_mutates_argument (rect : loc) (r : Rect) (priority : Z) (h : Heap) (e : Engine) :
  h !! rect = Some r ->
  rect_pattern r = None \/ rect_pattern r = Some EmptyString ->
  let result := addRect rect priority (h, e) in
  let h' := fst (snd result) in
  let e' := snd (snd result) in
  let q := default emptyBucket (getProp (queue e) priority) in
  let colors := default [] (getProp (b_rect q) "none"%string) in
  let items := default [] (getProp colors (rect_color r)) in
  h' !! rect
  = Some (mkRect (rect_color r) (Some "none"%string) (rect_x r) (rect_y r) (rect_w r) (rect_h r))
  /\ (forall l, l <> rect -> h' !! l = h !! l)
  /\ (isPrototypeName (rect_color r) = false \/ is_Some (getProp colors (rect_color r)) ->
      fst result = Normal
      /\ exists q' colors',
           getProp (queue e') priority = Some q'
           /\ b_text q' = b_text q /\ b_stroke q' = b_stroke q
           /\ getProp (b_rect q') "none"%string = Some colors'
           /\ getProp colors' (rect_color r) = Some (items ++ [rect]))
  /\ (isPrototypeName (rect_color r) = true -> getProp colors (rect_color r) = None ->
      fst result = TypeError
      /\ exists q',
           getProp (queue e') priority = Some q'
           /\ b_text q' = b_text q /\ b_stroke q' = b_stroke q
           /\ getProp (b_rect q') "none"%string = Some colors).
Proof.
  intros Hr Hfalsy. cbv zeta.
  assert (Hnone : patternOrNone (rect_pattern r) = "none"%string)
    by (destruct Hfalsy as [-> | ->]; reflexivity).
  unfold addRect. rewrite Hr, Hnone.
  pose proof (queue_getQueue priority e) as (_ & _ & Hq).
  destruct (getQueue priority e) as [q e1]. cbn in Hq. subst q.
  set (q := default emptyBucket (getProp (queue e) priority)).
  set (rects1 := if hasProp (b_rect q) "none" then b_rect q
                 else setProp (b_rect q) "none"%string []).
  assert (Hrects : getProp rects1 "none"%string
                   = Some (default [] (getProp (b_rect q) "none"%string))).
  { unfold rects1, hasProp. destruct (getProp (b_rect q) "none"%string) as [cs|] eqn:E.
    - rewrite bool_decide_true by eauto. cbn. exact E.
    - rewrite bool_decide_false by (intros [? ?]; discriminate).
      cbn. apply getProp_setProp_eq. }
  rewrite Hrects.
  set (colors := default [] (getProp (b_rect q) "none"%string)) in *.
  unfold hasProp.
  destruct (getProp colors (rect_color r)) as [items|] eqn:Ec.
  - rewrite bool_decide_true by eauto. cbn [orb]. rewrite Ec. cbn.
    split; [apply lookup_insert_eq|].
    split; [intros l Hl; now apply lookup_insert_ne|].
    split; [|intros _ Habs; discriminate].
    intros _. split; [reflexivity|].
    eexists. eexists. split; [apply getProp_setProp_eq|]. cbn.
    split; [reflexivity|]. split; [reflexivity|].
    split; [apply getProp_setProp_eq|]. apply getProp_setProp_eq.
  - rewrite bool_decide_false by (intros [? ?]; discriminate). cbn [orb].
    destruct (isPrototypeName (rect_color r)) eqn:Ep.
    + rewrite Ec. cbn.
      split; [apply lookup_insert_eq|].
      split; [intros l Hl; now apply lookup_insert_ne|].
      split; [intros [Habs|[? Habs]]; discriminate|].
      intros _ _. split; [reflexivity|].
      eexists. split; [apply getProp_setProp_eq|]. cbn.
      split; [reflexivity|]. split; [reflexivity | exact Hrects].
    + rewrite getProp_setProp_eq. cbn.
      split; [apply lookup_insert_eq|].
      split; [intros l Hl; now apply lookup_insert_ne|].
      split; [|intros Habs; discriminate].
      intros _. split; [reflexivity|].
      eexists. eexists. split; [apply getProp_setProp_eq|]. cbn.
      split; [reflexivity|]. split; [reflexivity|].
      split; [apply getProp_setProp_eq|]. apply getProp_setProp_eq.
Qed.

(** A rect object without a pattern gets the pattern ['none'], and its
    reference is the one item of the run of ['none'] and its colour. *)
Lemma addRect_mutates_argument_witness :
  plainHeap !! 0%nat = Some (mkRect "red" None (-50) 0 100 (Some 10))
  /\ (rect_pattern (mkRect "red" None (-50) 0 100 (Some 10)) = None
      \/ rect_pattern (mkRect "red" None (-50) 0 100 (Some 10)) = Some EmptyString)
  /\ fst (snd (addRect 0%nat 0 (plainHeap, sampleEngine))) !! 0%nat
     = Some (mkRect "red" (Some "none"%string) (-50) 0 100 (Some 10))
  /\ fst (addRect 0%nat 0 (plainHeap, sampleEngine)) = Normal
  /\ exists q colors,
       getProp (queue (snd (snd (addRect 0%nat 0 (plainHeap, sampleEngine))))) 0%Z = Some q
       /\ getProp (b_rect q) "none"%string = Some colors
       /\ getProp colors "red"%string = Some [0%nat].
Proof.
  assert (H : plainHeap !! 0%nat = Some (mkRect "red" None (-50) 0 100 (Some 10)))
    by reflexivity.
  assert (Hp : rect_pattern (mkRect "red" None (-50) 0 100 (Some 10)) = None
               \/ rect_pattern (mkRect "red" None (-50) 0 100 (Some 10)) = Some EmptyString)
    by (left; reflexivity).
  split; [exact H|]. split; [exact Hp|].
  destruct (addRect_mutates_argument 0%nat _ 0 plainHeap sampleEngine H Hp)
    as (Hobj & _ & Hstored & _).
  split; [exact Hobj|].
  destruct Hstored as (Hnormal & q & colors & Hq & _ & _ & Hc & Hi); [left; reflexivity|].
  split; [exact Hnormal|].
  exists q, colors. split; [exact Hq|]. split; [exact Hc | exact Hi].
Defined.

(** ** Floors and ceilings *)

Lemma Qfloor_unique (x : Q) (z : Z) :
  inject_Z z <= x -> x < inject_Z (z + 1) -> Qfloor x = z.
Proof.
  intros Hlo Hhi. apply Z.le_antisymm.
  - apply Z.lt_succ_r. rewrite Zlt_Qlt.
    eapply Qle_lt_trans; [apply Qfloor_le | exact Hhi].
  - rewrite <- (Qfloor_Z z). now apply Qfloor_resp_le.
Qed.

Lemma Qceiling_unique (x : Q) (z : Z) :
  inject_Z (z - 1) < x -> x <= inject_Z z -> Qceiling x = z.
Proof.
  intros Hlo Hhi. apply Z.le_antisymm.
  - rewrite <- (Qceiling_Z z). now apply Qceiling_resp_le.
  - apply Z.lt_pred_le. rewrite Zlt_Qlt.
    eapply Qlt_le_trans; [exact Hlo | apply Qle_ceiling].
Qed.

(** ** Sequences of operations *)





(** ** Pattern groups *)











(** ** The order of resolution *)

Lemma insertDefault_Permutation a l : Permutation (insertDefault a l) (a :: l).
Proof.
  induction l as [|b l IH]; cbn; [reflexivity|].
  destruct (defaultLe a b); [reflexivity|].
  rewrite IH. apply Permutation_swap.
Qed.

Lemma sortDefault_Permutation l : Permutation (sortDefault l) l.
Proof.
  induction l as [|a l IH]; cbn; [reflexivity|].
  now rewrite insertDefault_Permutation, IH.
Qed.

Lemma defaultLe_total a b : defaultLe a b = true \/ defaultLe b a = true.
Proof. apply String.leb_total. Qed.

Lemma insertDefault_Sorted a l :
  Sorted (fun x y => defaultLe x y = true) l ->
  Sorted (fun x y => defaultLe x y = true) (insertDefault a l).
Proof.
  induction l as [|b l IH]; cbn; intros Hs.
  - repeat constructor.
  - destruct (defaultLe a b) eqn:E.
    + constructor; [exact Hs | constructor; exact E].
    + inversion Hs as [|? ? Hs' Hhd]; subst. constructor; [now apply IH|].
      destruct l as [|c l]; cbn.
      * constructor. destruct (defaultLe_total a b); congruence.
      * destruct (defaultLe a c); constructor.
        -- destruct (defaultLe_total a b); congruence.
        -- now inversion Hhd.
Qed.

Lemma sortDefault_Sorted l : Sorted (fun x y => defaultLe x y = true) (sortDefault l).
Proof.
  induction l as [|a l IH]; cbn; [constructor | now apply insertDefault_Sorted].
Qed.

Section OwnEntries.
Context {K V : Type} `{EqDecision K}.

Lemma insertByIndex_Permutation (idx : K -> Z) (e : K * V) l :
  Permutation (insertByIndex idx e l) (e :: l).
Proof.
  induction l as [|e' l IH]; cbn; [reflexivity|].
  destruct (idx e.1 <=? idx e'.1)%Z; [reflexivity|].
  rewrite IH. apply Permutation_swap.
Qed.

(** The enumeration of a dictionary lists every entry once. *)
Lemma ownEntries_Permutation (arrayIndex : K -> option Z) (o : list (K * V)) :
  Permutation (ownEntries arrayIndex o) o.
Proof.
  unfold ownEntries.
  set (P := fun e : K * V => bool_decide (is_Some (arrayIndex e.1)) = true).
  set (N := fun e : K * V => bool_decide (is_Some (arrayIndex e.1)) = false).
  assert (Hsort : forall l : list (K * V),
             Permutation
               (foldr (insertByIndex (fun k => default 0%Z (arrayIndex k))) [] l) l).
  { induction l as [|e l IH]; cbn; [reflexivity|].
    now rewrite insertByIndex_Permutation, IH. }
  rewrite Hsort. clear Hsort.
  induction o as [|e o IH]; [reflexivity|].
  rewrite !filter_cons.
  destruct (decide (P e)) as [Hp|Hp]; destruct (decide (N e)) as [Hn|Hn]; unfold P, N in *.
  - congruence.
  - cbn. now rewrite IH.
  - rewrite <- Permutation_middle. now rewrite IH.
  - destruct (bool_decide (is_Some (arrayIndex e.1))); congruence.
Qed.
End OwnEntries.

(** C1: [resolveQueue] visits every priority of the queue once, in the
    order of the decimal forms of the priorities as strings, because
    [sort()] is called without a comparator; with the priorities 2 and 10
    in the queue it visits priority 10 before priority 2: on the sample
    frame the stroke of priority 10 is painted first, then the rect, the
    text and the stroke of priority 2, in that order. *)
Theorem resolveQueue_sorts_priorities_as_strings (s2 s10 : Stroke) (e : Engine) :
  Permutation (resolveOrder e) (map fst (queue e))
  /\ Sorted (fun p q => String.leb (toString p) (toString q) = true) (resolveOrder e)
  /\ resolveOrder (addStroke s10 10 (addStroke s2 2 (set_queue [] e))) = [10; 2]%Z
  /\ ctx (resolveQueue (fst sampleFrame) (snd sampleFrame))
     = [SetProp "fillStyle" (VStr "black");
        SetProp "strokeStyle" (VStr "ten"); SetLineDash [];
        SetProp "lineWidth" (VNum (3 # 2)); StrokeRect 0 0 10 10;
        SetProp "fillStyle" (VStr "red"); FillRect 0 0 50 10;
        SetProp "fillStyle" (VStr "black");
        FillText (take 5 sampleLabel ++ [ellipsis] ++ drop 16 sampleLabel) 4 13;
        SetProp "strokeStyle" (VStr "two"); SetLineDash [];
        SetProp "lineWidth" (VNum (3 # 2)); StrokeRect 0 0 10 10].
Proof.
  split; [|split; [|split]].
  - unfold resolveOrder. rewrite sortDefault_Permutation.
    now rewrite ownEntries_Permutation.
  - apply sortDefault_Sorted.
  - vm_compute; reflexivity.
  - vm_compute; reflexivity.
Qed.

(** ** The text fitter *)

(** The two halves of [maxChars - 1]. *)
Lemma halfChars_floor (m : Z) : Qfloor ((inject_Z m - 1) / 2) = ((m - 1) / 2)%Z.
Proof.
  apply Qfloor_unique.
  - assert (H : (2 * ((m - 1) / 2) <= m - 1)%Z) by (apply Z.mul_div_le; lia).
    inject_in H. inject_goal. apply Qle_shift_div_l; lra.
  - assert (H : (m - 1 < 2 * ((m - 1) / 2 + 1))%Z).
    { pose proof (Z.mod_pos_bound (m - 1) 2 ltac:(lia)).
      pose proof (Z.div_mod (m - 1) 2 ltac:(lia)). lia. }
    inject_in H. inject_goal. apply Qlt_shift_div_r; lra.
Qed.

Lemma halfChars_ceiling (m : Z) : Qceiling ((inject_Z m - 1) / 2) = (m / 2)%Z.
Proof.
  pose proof (Z.mod_pos_bound m 2 ltac:(lia)) as Hmod.
  pose proof (Z.div_mod m 2 ltac:(lia)) as Hdiv.
  apply Qceiling_unique.
  - assert (H : (2 * (m / 2 - 1) < m - 1)%Z) by lia.
    inject_in H. inject_goal. apply Qlt_shift_div_l; lra.
  - assert (H : (m - 1 <= 2 * (m / 2))%Z) by lia.
    inject_in H. inject_goal. apply Qle_shift_div_r; lra.
Qed.

(** When an overflowing text keeps characters, the budget [maxChars] is at
    least 2 and at most twice the length of the text, and its halving is
    exact. *)
Lemma maxChars_bounds (tw tmw pw : Q) (len : Z) :
  0 <= tw -> 0 <= pw -> (0 <= len < 2 ^ 52)%Z -> round64 tw == tw -> tmw < tw ->
  let avgCharWidth := round64 (tw / inject_Z len) in
  let maxChars := Qfloor (round64 (round64 (tmw - pw) / avgCharWidth)) in
  ~ avgCharWidth == 0 ->
  0 < round64 (round64 (inject_Z maxChars - 1) / 2) ->
  (2 <= maxChars <= 2 * len)%Z
  /\ round64 (round64 (inject_Z maxChars - 1) / 2) == (inject_Z maxChars - 1) / 2.
Proof.
  intros Htw Hpw Hlen Hdouble Hover avg maxChars Havg Hhalf.
  assert (Hlen0 : (0 < len)%Z).
  { destruct (Z.eq_dec len 0%Z) as [E|E]; [|lia]. exfalso. apply Havg.
    unfold avg. rewrite E. rewrite (round64_zero (tw / inject_Z 0)); [reflexivity|].
    unfold Qdiv. change (/ inject_Z 0) with 0. ring. }
  assert (HL : 0 < inject_Z len) by (rewrite <- (Zlt_Qlt 0); exact Hlen0).
  assert (Htw0 : 0 < tw).
  { destruct (Qeq_dec tw 0) as [E|E]; [|lra]. exfalso. apply Havg.
    unfold avg. rewrite (round64_zero (tw / inject_Z len)); [reflexivity|].
    unfold Qdiv. rewrite (Qmult_comp tw 0 E _ _ (Qeq_refl (/ inject_Z len))). ring. }
  assert (Hy : 0 < tw / inject_Z len) by (apply Qlt_shift_div_l; lra).
  pose proof (round64_lower _ Hy Havg) as Hlow. fold avg in Hlow.
  assert (Hsplit : tw == tw / inject_Z len * inject_Z len) by (field; lra).
  assert (Havg0 : 0 < avg) by lra.
  assert (Ha : round64 (tmw - pw) <= tw).
  { rewrite <- Hdouble. apply round64_le. lra. }
  assert (Hq : round64 (tmw - pw) / avg <= inject_Z (2 * len)).
  { apply Qle_shift_div_r; [exact Havg0|]. rewrite inject_Z_mult.
    change (inject_Z 2) with 2. nra. }
  assert (Hm : (maxChars <= 2 * len)%Z).
  { rewrite Zle_Qle. eapply Qle_trans; [apply Qfloor_le|].
    rewrite <- (round64_Z (2 * len)) by lia. now apply round64_le. }
  assert (Hm2 : (2 <= maxChars)%Z).
  { destruct (Z_lt_le_dec maxChars 2%Z) as [Hlt|]; [|assumption]. exfalso.
    assert (H1 : inject_Z maxChars - 1 <= 0).
    { assert (H1 : inject_Z maxChars <= inject_Z 1) by (rewrite <- Zle_Qle; lia).
      change (inject_Z 1) with 1 in H1. lra. }
    apply round64_nonpos in H1.
    assert (H2 : round64 (inject_Z maxChars - 1) / 2 <= 0).
    { apply Qle_shift_div_r; lra. }
    apply round64_nonpos in H2. lra. }
  split; [lia|].
  assert (E1 : round64 (inject_Z maxChars - 1) == inject_Z (maxChars - 1)).
  { assert (E : inject_Z maxChars - 1 == inject_Z (maxChars - 1)).
    { unfold Z.sub. rewrite inject_Z_plus, inject_Z_opp. reflexivity. }
    rewrite (round64_comp _ _ E). apply round64_Z. lia. }
  assert (E2 : round64 (inject_Z maxChars - 1) / 2 == inject_Z (maxChars - 1) / 2)
    by now rewrite E1.
  rewrite (round64_comp _ _ E2), round64_half by lia.
  unfold Z.sub. rewrite inject_Z_plus, inject_Z_opp. reflexivity.
Qed.

Lemma slice_leading (s : jsstring) (c : Z) :
  (0 <= c <= Z.of_nat (length s))%Z -> slice s 0 c = take (Z.to_nat c) s.
Proof.
  intros Hc. unfold slice, relativeIndex. cbn [Z.ltb Z.compare].
  destruct (c <? 0)%Z eqn:E; [lia|].
  rewrite Z.min_l, Z.min_l by lia. cbn. f_equal. lia.
Qed.

Lemma slice_trailing (s : jsstring) (f : Z) :
  (0 <= f <= Z.of_nat (length s))%Z ->
  slice s (Z.of_nat (length s) - f) (Z.of_nat (length s))
  = drop (length s - Z.to_nat f) s.
Proof.
  intros Hf. unfold slice, relativeIndex.
  destruct (Z.of_nat (length s) - f <? 0)%Z eqn:E1; [lia|].
  destruct (Z.of_nat (length s) <? 0)%Z eqn:E2; [lia|].
  rewrite Z.min_l, Z.min_l by lia.
  replace (Z.to_nat (Z.of_nat (length s) - f)) with (length s - Z.to_nat f)%nat by lia.
  apply take_ge. rewrite length_drop. lia.
Qed.

Lemma ellipses_around (a b : jsstring) :
  ellipses (a ++ [ellipsis] ++ b) = S (ellipses a + ellipses b).
Proof.
  unfold ellipses. change ([ellipsis] ++ b) with (ellipsis :: b).
  rewrite count_occ_app, count_occ_cons_eq by reflexivity. apply Nat.add_succ_r.
Qed.

Lemma ctx_renderText e t :
  ctx (renderText e t)
  = ctx e ++ match fitText e (text_text t) (text_textMaxWidth t) with
             | [] => []
             | s =>
                 [FillText s
                    (round64 ((if Qlt_bool (text_x t) 0 then 0 else text_x t)
                              + blockPaddingLeftRight e))
                    (round64 (round64 (text_y t + blockHeight e) - blockPaddingTopBottom e))]
             end.
Proof.
  unfold renderText. destruct (fitText _ _ _); cbn; [now rewrite app_nil_r | reflexivity].
Qed.

(** C6, as stated, fails twice.  A text that has ellipses of its own keeps
    them: of a label of twenty ellipses that overflows its box, ten
    ellipses are drawn, not a string with exactly one.  And the budget is
    computed in the doubles: for a label of 14 code units that measures 72
    pixels, in a box with room for 42 and with an ellipsis of 6 pixels, the
    quotient 36 / (72 / 14) is 7, but the source divides by the double
    nearest to 72 / 14, finds 6.999999999999999 and keeps three and two
    characters, not three and three. *)
Lemma fitText_keeps_the_ellipses_of_the_text :
  Qlt_bool 70 (measureText sampleEngine dottedLabel) = true
  /\ fitText sampleEngine dottedLabel 70 = repeat ellipsis 10
  /\ ctx (renderText sampleEngine (mkText dottedLabel 0 0 78 70))
     = [FillText (repeat ellipsis 10) 4 13]
  /\ ellipses (fitText sampleEngine dottedLabel 70) <> 1%nat
  /\ measureText proportionalEngine shortLabel = 72
  /\ Qfloor ((42 - placeholderWidth proportionalEngine)
             / (measureText proportionalEngine shortLabel
                / inject_Z (Z.of_nat (length shortLabel)))) = 7%Z
  /\ fitText proportionalEngine shortLabel 42
     = take 3 shortLabel ++ [ellipsis] ++ drop 12 shortLabel.
Proof. repeat split; vm_compute; congruence. Qed.

(** C6, amended: for a text of less than 2^52 code units whose measured
    width (a double, not negative) exceeds its [textMaxWidth], with the
    ellipsis not of negative width and
    with [avgCharWidth], [maxChars] and [half] as the source computes them
    in the doubles, [avgCharWidth] not being zero: when [half > 0] the
    string drawn is the first [ceil(half)] characters, one ellipsis, then
    the last [floor(half)] characters, the former at least as many as the
    latter, and it has one ellipsis more than the characters it keeps, so
    exactly one when the text has none; when [half <= 0] nothing is drawn;
    a text that fits is drawn as it is, and nothing is drawn for an empty
    one. *)
Theorem renderText_truncates_in_the_middle (e : Engine) (t : Text) :
  0 <= measureText e (text_text t) ->
  0 <= placeholderWidth e ->
  round64 (measureText e (text_text t)) == measureText e (text_text t) ->
  (Z.of_nat (length (text_text t)) < 2 ^ 52)%Z ->
  let text := text_text t in
  let textWidth := measureText e text in
  let avgCharWidth := round64 (textWidth / inject_Z (Z.of_nat (length text))) in
  let maxChars :=
    Qfloor (round64 (round64 (text_textMaxWidth t - placeholderWidth e) / avgCharWidth)) in
  let half := round64 (round64 (inject_Z maxChars - 1) / 2) in
  let leading := take (Z.to_nat (Qceiling half)) text in
  let trailing := drop (length text - Z.to_nat (Qfloor half)) text in
  let draws s :=
    ctx (renderText e t)
    = ctx e ++ [FillText s
                  (round64 ((if Qlt_bool (text_x t) 0 then 0 else text_x t)
                            + blockPaddingLeftRight e))
                  (round64 (round64 (text_y t + blockHeight e) - blockPaddingTopBottom e))] in
  (text_textMaxWidth t < textWidth -> ~ avgCharWidth == 0 -> 0 < half ->
     draws (leading ++ [ellipsis] ++ trailing)
     /\ half == (inject_Z maxChars - 1) / 2
     /\ Z.of_nat (length leading) = Qceiling half
     /\ Z.of_nat (length trailing) = Qfloor half
     /\ (length trailing <= length leading)%nat
     /\ ellipses (leading ++ [ellipsis] ++ trailing) = S (ellipses leading + ellipses trailing)
     /\ (~ In ellipsis text -> ellipses (leading ++ [ellipsis] ++ trailing) = 1%nat))
  /\ (text_textMaxWidth t < textWidth -> ~ avgCharWidth == 0 -> half <= 0 ->
      renderText e t = e)
  /\ (textWidth <= text_textMaxWidth t -> text <> [] -> draws text)
  /\ (textWidth <= text_textMaxWidth t -> text = [] -> renderText e t = e).
Proof.
  intros Htw Hpw Hdouble Hshort. cbv zeta.
  set (text := text_text t) in *. set (tmw := text_textMaxWidth t).
  set (len := Z.of_nat (length text)) in *.
  set (avg := round64 (measureText e text / inject_Z len)).
  set (maxChars := Qfloor (round64 (round64 (tmw - placeholderWidth e) / avg))).
  set (half := round64 (round64 (inject_Z maxChars - 1) / 2)).
  assert (Hfit : fitText e text tmw
                 = if Qlt_bool tmw (measureText e text) then
                     if Qlt_bool 0 half then
                       slice text 0 (Qceiling half) ++ [ellipsis]
                         ++ slice text
                              (Qfloor (round64 (inject_Z len - inject_Z (Qfloor half)))) len
                     else []
                   else text) by reflexivity.
  split; [|split; [|split]].
  - intros Hover Havg Hhalf.
    pose proof (maxChars_bounds (measureText e text) tmw (placeholderWidth e) len
                  Htw Hpw ltac:(lia) Hdouble Hover Havg Hhalf) as [Hm Hexact].
    fold avg maxChars half in Hm, Hexact.
    assert (Hc : Qceiling half = (maxChars / 2)%Z).
    { rewrite (Qceiling_comp _ _ Hexact). apply halfChars_ceiling. }
    assert (Hf : Qfloor half = ((maxChars - 1) / 2)%Z).
    { rewrite (Qfloor_comp _ _ Hexact). apply halfChars_floor. }
    assert (Hcf : (0 <= Qfloor half <= Qceiling half /\ Qceiling half <= len)%Z).
    { rewrite Hc, Hf.
      pose proof (Z.mod_pos_bound maxChars 2 ltac:(lia)).
      pose proof (Z.div_mod maxChars 2 ltac:(lia)).
      pose proof (Z.mod_pos_bound (maxChars - 1) 2 ltac:(lia)).
      pose proof (Z.div_mod (maxChars - 1) 2 ltac:(lia)). lia. }
    assert (Hstart : Qfloor (round64 (inject_Z len - inject_Z (Qfloor half)))
                     = (len - Qfloor half)%Z).
    { assert (E : inject_Z len - inject_Z (Qfloor half) == inject_Z (len - Qfloor half)).
      { unfold Z.sub. rewrite inject_Z_plus, inject_Z_opp. reflexivity. }
      rewrite (round64_comp _ _ E).
      rewrite (Qfloor_comp _ _ (round64_Z (len - Qfloor half) ltac:(lia))).
      apply Qfloor_Z. }
    assert (Hlead : slice text 0 (Qceiling half) = take (Z.to_nat (Qceiling half)) text)
      by (apply slice_leading; fold len; lia).
    assert (Htrail : slice text (len - Qfloor half) len
                     = drop (length text - Z.to_nat (Qfloor half)) text)
      by (apply slice_trailing; fold len; lia).
    split; [|split; [|split; [|split; [|split; [|split]]]]].
    + rewrite ctx_renderText. fold text tmw. rewrite Hfit.
      rewrite (proj2 (Qlt_bool_true _ _) Hover), (proj2 (Qlt_bool_true _ _) Hhalf).
      rewrite Hstart, Hlead, Htrail.
      destruct (take (Z.to_nat (Qceiling half)) text ++ [ellipsis] ++ _) eqn:E;
        [|reflexivity].
      apply app_eq_nil in E. destruct E as [_ E]. discriminate.
    + exact Hexact.
    + rewrite length_take. unfold len in *. lia.
    + rewrite length_drop. unfold len in *. lia.
    + rewrite length_take, length_drop. unfold len in *. lia.
    + apply ellipses_around.
    + intros Hnone. rewrite ellipses_around. unfold ellipses.
      rewrite (proj1 (count_occ_not_In N.eq_dec _ _)), (proj1 (count_occ_not_In N.eq_dec _ _)).
      * reflexivity.
      * intros Hin. apply Hnone.
        rewrite <- (take_drop (length text - Z.to_nat (Qfloor half)) text).
        apply in_or_app. now right.
      * intros Hin. apply Hnone.
        rewrite <- (take_drop (Z.to_nat (Qceiling half)) text).
        apply in_or_app. now left.
  - intros Hover _ Hhalf. unfold renderText. fold text tmw. rewrite Hfit.
    rewrite (proj2 (Qlt_bool_true _ _) Hover), (proj2 (Qlt_bool_false _ _) Hhalf).
    reflexivity.
  - intros Hfits Hne. rewrite ctx_renderText. fold text tmw. rewrite Hfit.
    rewrite (proj2 (Qlt_bool_false _ _) Hfits). destruct text; [congruence | reflexivity].
  - intros Hfits Hnil. unfold renderText. fold text tmw. rewrite Hfit.
    rewrite (proj2 (Qlt_bool_false _ _) Hfits), Hnil. reflexivity.
Qed.

(** Of the label of twenty letters in a box with room for 70 pixels, five
    letters, the ellipsis and four letters are drawn. *)
Lemma renderText_truncates_in_the_middle_witness :
  0 <= measureText sampleEngine (text_text (mkText sampleLabel 0 0 78 70))
  /\ 0 <= placeholderWidth sampleEngine
  /\ round64 (measureText sampleEngine (text_text (mkText sampleLabel 0 0 78 70)))
     == measureText sampleEngine (text_text (mkText sampleLabel 0 0 78 70))
  /\ (Z.of_nat (length (text_text (mkText sampleLabel 0 0 78 70))) < 2 ^ 52)%Z
  /\ ctx (renderText sampleEngine (mkText sampleLabel 0 0 78 70))
     = [FillText (take 5 sampleLabel ++ [ellipsis] ++ drop 16 sampleLabel) 4 13].
Proof.
  assert (Hm : 0 <= measureText sampleEngine (text_text (mkText sampleLabel 0 0 78 70)))
    by (vm_compute; discriminate).
  assert (Hp : 0 <= placeholderWidth sampleEngine) by (vm_compute; discriminate).
  assert (Hd : round64 (measureText sampleEngine (text_text (mkText sampleLabel 0 0 78 70)))
               == measureText sampleEngine (text_text (mkText sampleLabel 0 0 78 70)))
    by (vm_compute; reflexivity).
  assert (Hl : (Z.of_nat (length (text_text (mkText sampleLabel 0 0 78 70))) < 2 ^ 52)%Z)
    by (vm_compute; reflexivity).
  split; [exact Hm|]. split; [exact Hp|]. split; [exact Hd|]. split; [exact Hl|].
  destruct (renderText_truncates_in_the_middle sampleEngine (mkText sampleLabel 0 0 78 70)
              Hm Hp Hd Hl) as (Htrunc & _).
  destruct Htrunc as (Hdraw & _);
    [vm_compute; reflexivity | vm_compute; discriminate | vm_compute; reflexivity |].
  etransitivity; [exact Hdraw|]. vm_compute. reflexivity.
Defined.

(** ** The pattern registry *)

Section Registry.
Context {Config : Type}.
Variable defaultPatterns : string -> option (Config -> PatternCreator).

Lemma registryAnswers_own (e : Engine) (name : string) :
  is_Some (patterns e !! name) -> registryAnswers e name = true.
Proof. intros H. unfold registryAnswers. now rewrite bool_decide_true. Qed.

Lemma registryAnswers_inherited (e : Engine) (name : string) :
  isPrototypeName name = true -> registryAnswers e name = true.
Proof.
  intros H. unfold registryAnswers. rewrite H.
  now destruct (bool_decide (is_Some (patterns e !! name))).
Qed.

Lemma registryAnswers_false (e : Engine) (name : string) :
  registryAnswers e name = false ->
  patterns e !! name = None /\ isPrototypeName name = false.
Proof.
  unfold registryAnswers. intros H.
  apply orb_false_iff in H. destruct H as [H _].
  apply orb_false_iff in H. destruct H as [H1 H2].
  split; [|exact H2]. apply bool_decide_eq_false in H1.
  destruct (patterns e !! name); [exfalso; apply H1; eauto | reflexivity].
Qed.

Lemma createCachedDefaultPattern_present (d : DefaultPatterns Config) (e : Engine) :
  registryAnswers e (dp_name d) = true -> createCachedDefaultPattern defaultPatterns d e = e.
Proof. intros H. unfold createCachedDefaultPattern. now rewrite H. Qed.

Lemma createCachedDefaultPattern_unknown (d : DefaultPatterns Config) (e : Engine) :
  defaultPatterns (dp_type d) = None -> createCachedDefaultPattern defaultPatterns d e = e.
Proof.
  intros Hg. unfold createCachedDefaultPattern, createDefaultPattern. rewrite Hg.
  now destruct (registryAnswers e (dp_name d)).
Qed.

Lemma createCachedDefaultPattern_absent (d : DefaultPatterns Config) (e : Engine) g :
  registryAnswers e (dp_name d) = false ->
  defaultPatterns (dp_type d) = Some g ->
  createCachedDefaultPattern defaultPatterns d e
  = createBlockPattern (dp_name d) (g (dp_config d)) e.
Proof.
  intros Hp Hg. unfold createCachedDefaultPattern, createDefaultPattern.
  now rewrite Hp, Hg.
Qed.

Lemma patterns_createBlockPattern name creator e :
  patterns (createBlockPattern name creator e)
  = <[name := mkPattern (default 1 (cr_scale (creator e)))
                        (default 10 (cr_width (creator e))) (cr_pattern (creator e))]>
      (patterns e).
Proof. reflexivity. Qed.

(** C8, amended: a second registration through [createCachedDefaultPattern]
    changes nothing; for a descriptor of a known kind under a name the
    registry does not answer for (neither the name of a registered pattern
    nor a name the registry inherits, such as [toString]) the first
    registration is one [createBlockPattern], after the two the registry
    has exactly one pattern more, and the pattern stored under the name is
    the one the first registration built; for an unknown kind, for a name
    already registered and for an inherited name nothing is created. *)
Theorem createCachedDefaultPattern_idempotent (d : DefaultPatterns Config) (e : Engine) :
  let e1 := createCachedDefaultPattern defaultPatterns d e in
  let e2 := createCachedDefaultPattern defaultPatterns d e1 in
  e2 = e1
  /\ (forall defaultPattern,
        registryAnswers e (dp_name d) = false ->
        defaultPatterns (dp_type d) = Some defaultPattern ->
        let r := defaultPattern (dp_config d) e in
        e1 = createBlockPattern (dp_name d) (defaultPattern (dp_config d)) e
        /\ patterns e2 !! dp_name d
           = Some (mkPattern (default 1 (cr_scale r)) (default 10 (cr_width r)) (cr_pattern r))
        /\ size (patterns e2) = S (size (patterns e)))
  /\ (defaultPatterns (dp_type d) = None -> e1 = e)
  /\ (is_Some (patterns e !! dp_name d) -> e1 = e)
  /\ (isPrototypeName (dp_name d) = true -> e1 = e).
Proof.
  cbv zeta.
  assert (Hidem : createCachedDefaultPattern defaultPatterns d
                    (createCachedDefaultPattern defaultPatterns d e)
                  = createCachedDefaultPattern defaultPatterns d e).
  { destruct (registryAnswers e (dp_name d)) eqn:Hp.
    - now rewrite !(createCachedDefaultPattern_present d e Hp).
    - destruct (defaultPatterns (dp_type d)) as [g|] eqn:Hg.
      + rewrite (createCachedDefaultPattern_absent d e g Hp Hg).
        apply createCachedDefaultPattern_present, registryAnswers_own.
        rewrite patterns_createBlockPattern, lookup_insert_eq. eauto.
      + assert (E : createCachedDefaultPattern defaultPatterns d e = e)
          by now apply createCachedDefaultPattern_unknown.
        now rewrite !E. }
  split; [exact Hidem|]. split; [|split; [|split]].
  - intros g Hp Hg. cbv zeta. rewrite Hidem.
    rewrite (createCachedDefaultPattern_absent d e g Hp Hg).
    split; [reflexivity|]. rewrite patterns_createBlockPattern.
    split; [apply lookup_insert_eq|].
    apply map_size_insert_None. now apply registryAnswers_false.
  - apply createCachedDefaultPattern_unknown.
  - intros H. now apply createCachedDefaultPattern_present, registryAnswers_own.
  - intros H. now apply createCachedDefaultPattern_present, registryAnswers_inherited.
Qed.
End Registry.

(** Two registrations of a stripes pattern leave one pattern. *)
Lemma createCachedDefaultPattern_idempotent_witness :
  registryAnswers sampleEngine (dp_name stripesDescriptor) = false
  /\ patterns (createCachedDefaultPattern sampleDefaultPatterns stripesDescriptor
                 (createCachedDefaultPattern sampleDefaultPatterns stripesDescriptor
                    sampleEngine)) !! "p"%string
     = Some (mkPattern 1 12 0%nat)
  /\ size (patterns (createCachedDefaultPattern sampleDefaultPatterns stripesDescriptor
                       (createCachedDefaultPattern sampleDefaultPatterns stripesDescriptor
                          sampleEngine))) = 1%nat.
Proof.
  split; [reflexivity|].
  destruct (createCachedDefaultPattern_idempotent sampleDefaultPatterns
              stripesDescriptor sampleEngine) as (_ & Hone & _).
  destruct (Hone (fun config e => mkCreatorResult (size (patterns e)) None (Some config))
              eq_refl eq_refl) as (_ & Hp & Hsize).
  split; [exact Hp | exact Hsize].
Defined.

(** C8, as stated, fails for a descriptor of an unknown kind, for which
    two registrations create no pattern at all, and for a descriptor of a
    known kind under the name [toString], for which the registry answers
    with the inherited member although it has no such pattern: nothing is
    created either. *)
Lemma unknown_kind_creates_no_pattern :
  sampleDefaultPatterns (dp_type zigzagDescriptor) = None
  /\ patterns (createCachedDefaultPattern sampleDefaultPatterns zigzagDescriptor
                 (createCachedDefaultPattern sampleDefaultPatterns zigzagDescriptor
                    sampleEngine)) !! "p"%string = None
  /\ size (patterns (createCachedDefaultPattern sampleDefaultPatterns zigzagDescriptor
                       (createCachedDefaultPattern sampleDefaultPatterns zigzagDescriptor
                          sampleEngine))) = 0%nat
  /\ is_Some (sampleDefaultPatterns (dp_type toStringDescriptor))
  /\ patterns sampleEngine !! dp_name toStringDescriptor = None
  /\ size (patterns (createCachedDefaultPattern sampleDefaultPatterns toStringDescriptor
                       (createCachedDefaultPattern sampleDefaultPatterns toStringDescriptor
                          sampleEngine))) = 0%nat.
Proof. repeat split; try reflexivity. vm_compute. eauto. Qed.
